(** * Diagonal-gate synthesis (qiskit/extensions/quantum_initializer/diag.py)

    A shallow embedding of [DiagGate.__init__], [DiagGate._dec_diag],
    [_extract_rz] and [diag_gate], and the properties of the decomposition
    of a diagonal unitary into uniformly-controlled Z-rotations.

    Number model.  Python floats are idealised as real numbers ([R]): the
    arithmetic of the source ([+], [-], [/ 2.0], [<]) is the exact arithmetic
    of the reals, so rounding is not modelled and every identity below is the
    exact one that the floating-point run approximates. *)

From Stdlib Require Import Reals Lra Lia Arith.
From stdpp Require Import base relations list.
From Equations Require Import Equations.

Set Default Proof Using "Type".

(** ** Exceptions and results *)

(** The messages of the [QiskitError]s raised in diag.py, one constructor
    per [raise] site. *)
Inductive qiskit_message : Type :=
  | DiagNotAList            (* "The diagonal entries are not provided in a list." *)
  | NotPositivePowerOf2     (* "The number of diagonal entries is not a positive power of 2." *)
  | NotConvertible          (* "Not all of the diagonal entries can be converted to complex numbers." *)
  | NotAbsoluteValueOne     (* "A diagonal entry has not absolute value one." *)
  | QubitsNotAList          (* "The qubits must be provided as a list ..." *)
  | QubitCountMismatch.     (* "The number of diagonal entries does not correspond to the number of qubits." *)

Inductive exception : Type :=
  | QiskitError (msg : qiskit_message)
  | ValueError                (* math.log2(0): "math domain error" *)
  | TypeError
  | IndexError.

Inductive result (A : Type) : Type :=
  | Ok (a : A)
  | Raise (e : exception).
Arguments Ok {A} a.
Arguments Raise {A} e.

(** [result] as an error monad, with stdpp's [x ← r; k] notation. *)
#[global] Instance result_ret : MRet result := fun A a => Ok a.
#[global] Instance result_bind : MBind result := fun A B k r =>
  match r with
  | Ok a => k a
  | Raise e => Raise e
  end.

(** ** [math.log2] on a list length

    The source only observes three things of the float [math.log2(len(diag))]:
    whether it is below 1, whether it [is_integer()], and its truncation
    [int(...)]; and it compares it with an integer ([len(qubit) == ...]).
    The float is the integer [k] when the length is [2^k] (log2 is exact on
    powers of two) and a non-integer strictly between [fl] and [fl + 1]
    otherwise; [math.log2(0)] raises [ValueError]. *)
Inductive log2_value : Type :=
  | Log2Int (k : nat)
  | Log2Frac (fl : nat).

Definition math_log2 (n : nat) : result log2_value :=
  if n =? 0 then Raise ValueError
  else if 2 ^ Nat.log2 n =? n then Ok (Log2Int (Nat.log2 n))
  else Ok (Log2Frac (Nat.log2 n)).

(** [v < 1] *)
Definition lt_one (v : log2_value) : bool :=
  match v with
  | Log2Int k => k <? 1
  | Log2Frac fl => fl <? 1
  end.

(** [v.is_integer()] *)
Definition is_integer (v : log2_value) : bool :=
  match v with
  | Log2Int _ => true
  | Log2Frac _ => false
  end.

(** [int(v)] *)
Definition int_of (v : log2_value) : nat :=
  match v with
  | Log2Int k => k
  | Log2Frac fl => fl
  end.

(** [m == v] for an integer [m] *)
Definition eq_int (m : nat) (v : log2_value) : bool :=
  match v with
  | Log2Int k => m =? k
  | Log2Frac _ => false
  end.

(** ** Diagonal entries *)

(** An element of the list handed to [DiagGate], as far as [__init__]
    handles it: a number that [complex] converts, seen as the complex number
    [complex(z)], or an object that [complex] refuses with a [TypeError]
    (for instance [None] or a list), the one exception that [__init__]
    catches.  Objects on which [complex] or [np.abs] raises anything else (a
    string, an integer too large for a float) leave [__init__] with that
    exception, uncaught; they are outside this type. *)
Inductive entry : Type :=
  | Cplx (re im : R)
  | NonNumeric.

Definition _EPS : R := 1e-10.

(** [np.abs(z)] of a complex number *)
Definition np_abs (re im : R) : R := sqrt (re * re + im * im).

(** [math.atan2], on the reals (no signed zero) *)
Definition atan2 (y x : R) : R :=
  if Rlt_dec 0 x then atan (y / x)
  else if Rlt_dec x 0 then
    (if Rle_dec 0 y then atan (y / x) + PI else atan (y / x) - PI)
  else if Rlt_dec 0 y then PI / 2
  else if Rlt_dec y 0 then - (PI / 2)
  else 0.

(** [cmath.phase(z)] *)
Definition cmath_phase (z : entry) : result R :=
  match z with
  | Cplx re im => Ok (atan2 im re)
  | NonNumeric => Raise TypeError
  end.

(** ** [DiagGate.__init__] *)

Record DiagGate : Type := mkDiagGate {
  num_qubits : nat;
  params : list entry
}.

(** The body of [for z in diag] of [__init__]. *)
Fixpoint check_entries (diag : list entry) : result unit :=
  match diag with
  | [] => Ok tt
  | NonNumeric :: _ => Raise (QiskitError NotConvertible)
  | Cplx re im :: rest =>
      if Rlt_dec (np_abs re im - 1) _EPS then check_entries rest
      else Raise (QiskitError NotAbsoluteValueOne)
  end.

Definition DiagGate_init (diag : list entry) : result DiagGate :=
  num_action_qubits ← math_log2 (length diag);
  if lt_one num_action_qubits || negb (is_integer num_action_qubits)
  then Raise (QiskitError NotPositivePowerOf2)
  else
    _ ← check_entries diag;
    Ok (mkDiagGate (int_of num_action_qubits) diag).

(** ** The synthesis: [_extract_rz] and [DiagGate._dec_diag] *)

(** A qubit [q[j]] of the register [q = QuantumRegister(num_qubits)] is
    modelled by its index [j]. *)
Definition qubit : Type := nat.

Definition QuantumRegister (size : nat) : list qubit := seq 0 size.

(** The Python slice [l[a:b]] for [0 <= a] and [0 <= b]. *)
Definition slice {A : Type} (a b : nat) (l : list A) : list A :=
  take (b - a) (drop a l).

(** One call [circuit.ucz(angle_list, q_controls, q_target)]: the record of
    a uniformly-controlled Z-rotation appended to the circuit. *)
Record instruction : Type := UCZ {
  angle_list : list R;
  q_controls : list qubit;
  q_target : qubit
}.

Definition _extract_rz (phi1 phi2 : R) : R * R :=
  let phase := ((phi1 + phi2) / 2)%R in
  let z_angle := (phi2 - phi1)%R in
  (phase, z_angle).

(** [range(0, n, 2)] *)
Definition range_step2 (n : nat) : list nat :=
  (fun j => 2 * j) <$> seq 0 ((n + 1) / 2).

(** The [for i in range(0, n, 2)] loop of one level, run on the indices
    [idx]: [diag_phases] is updated in place, [angles_rz] is appended to.
    A read [diag_phases[i]] or [diag_phases[i + 1]] past the end raises
    [IndexError]; the write index [i // 2] is at most [i], which was just
    read, so the write is always inside the list. *)
Fixpoint for_pairs (idx : list nat) (diag_phases angles_rz : list R)
  : result (list R * list R) :=
  match idx with
  | [] => Ok (diag_phases, angles_rz)
  | i :: idx' =>
      match diag_phases !! i, diag_phases !! (i + 1) with
      | Some phi1, Some phi2 =>
          let '(phase, rz_angle) := _extract_rz phi1 phi2 in
          for_pairs idx' (<[i / 2 := phase]> diag_phases) (angles_rz ++ [rz_angle])
      | _, _ => Raise IndexError
      end
  end.

(** The body of the [while n >= 2] loop: the pairs of the level, then the
    instruction of the level.  [int(np.log2(n))] is [Nat.log2 n] ([n >= 2]
    here, and a power of two in every run from a constructed gate).  The
    indices [num_qubits - num_act_qubits] are natural numbers: in every run
    from a constructed gate [n] divides [2^num_qubits], so that
    [num_act_qubits <= num_qubits] and no index is negative.  The slice
    never raises; the read of the target raises [IndexError] past the end
    of the register.  Returns the updated [diag_phases] and the instruction
    handed to [circuit.ucz]. *)
Definition level (num_qubits n : nat) (diag_phases : list R)
  : result (list R * instruction) :=
  let q := QuantumRegister num_qubits in
  '(diag_phases', angles_rz) ← for_pairs (range_step2 n) diag_phases [];
  let num_act_qubits := Nat.log2 n in
  let contr_qubits := slice (num_qubits - num_act_qubits + 1) num_qubits q in
  match q !! (num_qubits - num_act_qubits) with
  | None => Raise IndexError
  | Some target_qubit => Ok (diag_phases', UCZ angles_rz contr_qubits target_qubit)
  end.

(** The [while n >= 2] loop, by well-founded recursion on [n]: the state is
    [n], [diag_phases] and the [circuit] built so far; the result is the
    circuit together with the final [diag_phases]. *)
Equations? dec_loop (num_qubits n : nat) (diag_phases : list R)
  (circuit : list instruction) : result (list instruction * list R)
  by wf n lt :=
dec_loop k n ph circ with le_lt_dec 2 n := {
  | left _ with level k n ph := {
      | Raise e => Raise e
      | Ok (ph', ins) => dec_loop k (n / 2) ph' (circ ++ [ins]) }
  | right _ => Ok (circ, ph) }.
Proof. change (n / 2 < n). apply Nat.div_lt; lia. Qed.

(** [diag_phases = [cmath.phase(z) for z in self.params]] *)
Fixpoint phases_of (zs : list entry) : result (list R) :=
  match zs with
  | [] => Ok []
  | z :: zs' =>
      p ← cmath_phase z;
      ps ← phases_of zs';
      Ok (p :: ps)
  end.

(** [_dec_diag], returning with the circuit the final state of
    [diag_phases] (whose entry 0 is the phase left over after the last
    level). *)
Definition dec_diag_state (g : DiagGate) : result (list instruction * list R) :=
  diag_phases ← phases_of (params g);
  dec_loop (num_qubits g) (length (params g)) diag_phases [].

Definition _dec_diag (g : DiagGate) : result (list instruction) :=
  '(circuit, _) ← dec_diag_state g;
  Ok circuit.

(** ** [diag_gate] *)

(** The circuit [self]: the list of the gates appended so far, each with
    the qubits it is applied to. *)
Definition QuantumCircuit : Type := list (DiagGate * list qubit).

(** [diag_gate(self, diag, qubit)] with [qubit] a list.  The circuit is
    threaded through: a raise of [diag_gate] itself leaves it as it was.
    [self.append] is [QuantumCircuit.append], which is not part of diag.py:
    it is the parameter [append], giving from the circuit, the gate and the
    qubits the circuit after the call and what the call returns or raises
    (it may raise and append nothing, for instance on duplicate qubits). *)
Definition diag_gate
  (append : QuantumCircuit → DiagGate → list qubit →
            QuantumCircuit * result unit)
  (self : QuantumCircuit) (diag : list entry)
  (qubit : list qubit) : QuantumCircuit * result unit :=
  match math_log2 (length diag) with
  | Raise e => (self, Raise e)
  | Ok num_action_qubits =>
      if negb (eq_int (length qubit) num_action_qubits)
      then (self, Raise (QiskitError QubitCountMismatch))
      else
        match DiagGate_init diag with
        | Raise e => (self, Raise e)
        | Ok g => append self g qubit
        end
  end.

(** ** The two-buffer reduction (reference for the in-place loop)

    The reduction as a function from the current level's phase vector to
    the next one: [[p0; p1; p2; p3; ...]] is mapped to
    [[(p0 + p1) / 2; (p2 + p3) / 2; ...]], and the angles of the level are
    [[p1 - p0; p3 - p2; ...]]. *)
Fixpoint merge_pairs (ps : list R) : list R :=
  match ps with
  | p0 :: p1 :: rest => ((p0 + p1) / 2)%R :: merge_pairs rest
  | _ => []
  end.

Fixpoint delta_pairs (ps : list R) : list R :=
  match ps with
  | p0 :: p1 :: rest => (p1 - p0)%R :: delta_pairs rest
  | _ => []
  end.

(** The levels of the two-buffer reduction: [levels] rounds from the vector
    [cur], the instruction of a round of active length [n] being placed as
    [_dec_diag] places it. *)
Fixpoint two_buffer_loop (num_qubits levels : nat) (cur : list R)
  (circuit : list instruction) : list instruction * list R :=
  match levels with
  | O => (circuit, cur)
  | S levels' =>
      let num_act_qubits := Nat.log2 (length cur) in
      let ins := UCZ (delta_pairs cur)
                     (seq (num_qubits - num_act_qubits + 1) (num_act_qubits - 1))
                     (num_qubits - num_act_qubits) in
      two_buffer_loop num_qubits levels' (merge_pairs cur) (circuit ++ [ins])
  end.

(** The same two vectors, entry by entry: entry [i] of the next level and
    angle [i] of the level, from the entries [2i] and [2i + 1] of [ps]. *)
Definition mean_at (ps : list R) (i : nat) : R :=
  ((nth (2 * i) ps 0 + nth (2 * i + 1) ps 0) / 2)%R.

Definition delta_at (ps : list R) (i : nat) : R :=
  (nth (2 * i + 1) ps 0 - nth (2 * i) ps 0)%R.

Definition means (m : nat) (ps : list R) : list R := mean_at ps <$> seq 0 m.
Definition deltas (m : nat) (ps : list R) : list R := delta_at ps <$> seq 0 m.

(** ** The unitary of an emitted circuit

    Complex numbers are pairs (real part, imaginary part). *)
Definition C : Type := (R * R)%type.

Definition Cmult (a b : C) : C :=
  (a.1 * b.1 - a.2 * b.2, a.1 * b.2 + a.2 * b.1)%R.

(** [exp(1j * theta)] *)
Definition Cexp (theta : R) : C := (cos theta, sin theta).

(** The complex number of a numeric entry ([0] for a non-numeric one, which
    no constructed gate holds). *)
Definition entry_value (z : entry) : C :=
  match z with
  | Cplx re im => (re, im)
  | NonNumeric => (0%R, 0%R)
  end.

Definition unit_modulus (z : entry) : Prop :=
  match z with
  | Cplx re im => (re * re + im * im = 1)%R
  | NonNumeric => False
  end.

(** A state of the register: the amplitude of each basis state, the basis
    state [b] being the one where qubit [j] is in the state given by bit
    [j] of [b] (the first qubit is the least significant bit, as the
    docstring of [diag_gate] fixes it). *)
Definition state : Type := nat -> C.

(** Modelled from the spec: the uniformly-controlled rotation applied by
    [circuit.ucz], which is not part of diag.py.  The control pattern of a
    basis state is the number whose bit [j] is the state of the [j]-th
    control qubit; pattern [i] selects angle [i] of the instruction. *)
Fixpoint control_pattern (controls : list qubit) (b : nat) : nat :=
  match controls with
  | [] => 0
  | c :: controls' =>
      (if Nat.testbit b c then 1 else 0) + 2 * control_pattern controls' b
  end.

(** Modelled from the spec: the phase that the instruction gives to the
    basis state [b].  [Rz(theta)] is the diagonal matrix with entries
    [exp(-1j * theta / 2)] and [exp(1j * theta / 2)] (the convention of the
    comment above [_extract_rz]: [exp(1j * phase) * Rz(z_angle)] is the
    diagonal matrix with entries [exp(1j * phi1)] and [exp(1j * phi2)]),
    applied to the target qubit with the angle selected by the controls. *)
Definition ucz_phase (ins : instruction) (b : nat) : R :=
  let theta := nth (control_pattern (q_controls ins) b) (angle_list ins) 0%R in
  if Nat.testbit b (q_target ins) then (theta / 2)%R else (- (theta / 2))%R.

(** Modelled from the spec: the action of the instruction on a state of the
    whole register (a diagonal unitary: each amplitude is multiplied by its
    phase factor). *)
Definition apply_ucz (ins : instruction) (psi : state) : state :=
  fun b => Cmult (Cexp (ucz_phase ins b)) (psi b).

(** The instructions of a circuit applied in the order they were emitted. *)
Definition run_circuit (circuit : list instruction) (psi : state) : state :=
  foldl (fun psi ins => apply_ucz ins psi) psi circuit.

(** The sum of the phases the circuit gives to the basis state [b]. *)
Definition circuit_phase (circuit : list instruction) (b : nat) : R :=
  foldr (fun ins acc => (ucz_phase ins b + acc)%R) 0%R circuit.

(** The diagonal matrix of the gate applied to a state. *)
Definition apply_diag (diag : list entry) (psi : state) : state :=
  fun b => Cmult (entry_value (nth b diag NonNumeric)) (psi b).

(** The phase of an entry as a total function ([0] for a non-numeric
    entry, on which [cmath_phase] raises). *)
Definition entry_phase (z : entry) : R :=
  match z with
  | Cplx re im => atan2 im re
  | NonNumeric => 0%R
  end.

(** ** The [while] loop as a transition system

    A state of the loop is [(n, diag_phases, circuit)]; one transition is
    one execution of the loop body, enabled by the loop test [n >= 2]. *)
Definition loop_state : Type := (nat * list R * list instruction)%type.

Inductive while_step (num_qubits : nat) : loop_state → loop_state → Prop :=
  | while_iteration n diag_phases circuit diag_phases' ins :
      2 ≤ n →
      level num_qubits n diag_phases = Ok (diag_phases', ins) →
      while_step num_qubits (n, diag_phases, circuit)
                            (n / 2, diag_phases', circuit ++ [ins]).

(** ** Orders of emission *)

(** Coarsest level first, as a property of an emitted circuit on [k]
    qubits: the first instruction has the fewest controls, the last one has
    [k - 1] controls, and the target index decreases along the circuit
    (from the last qubit toward the first). *)
Definition fewest_controls_first (circuit : list instruction) : Prop :=
  ∀ first ins, head circuit = Some first → ins ∈ circuit →
    length (q_controls first) ≤ length (q_controls ins).

Definition most_controls_last (k : nat) (circuit : list instruction) : Prop :=
  ∀ final, last circuit = Some final → length (q_controls final) = k - 1.

Definition targets_toward_first (circuit : list instruction) : Prop :=
  ∀ i j a b, i < j → circuit !! i = Some a → circuit !! j = Some b →
    q_target b < q_target a.

Definition coarsest_level_first (k : nat) (circuit : list instruction) : Prop :=
  fewest_controls_first circuit ∧ most_controls_last k circuit ∧
  targets_toward_first circuit.

(** ** The controlled-Z diagonal [[1, 1, 1, -1]] *)
Definition cz_diag : list entry :=
  [Cplx 1 0; Cplx 1 0; Cplx 1 0; Cplx (-1) 0].

(** One level with an instruction of one control holding the angle [pi]
    (up to sign), every instruction without control (the level of the
    global phase) holding only the angle 0. *)
Definition one_level_then_zero (circuit : list instruction) : Prop :=
  (∃ ins, ins ∈ circuit ∧ length (q_controls ins) = 1 ∧
          (PI ∈ angle_list ins ∨ (- PI)%R ∈ angle_list ins)) ∧
  (∀ ins, ins ∈ circuit → q_controls ins = [] →
          Forall (λ a, a = 0%R) (angle_list ins)).

(** ** Measures of a circuit and of a phase vector *)

(** The two diagonal entries of [Rz(theta)], in the convention of the
    comment above [_extract_rz]. *)
Definition Rz (theta : R) : C * C :=
  (Cexp (- (theta / 2)), Cexp (theta / 2)).

(** The sum of a phase vector. *)
Definition phase_sum (ps : list R) : R := foldr Rplus 0%R ps.

(** The number of rotation angles a circuit holds. *)
Definition angle_count (circuit : list instruction) : nat :=
  foldr (fun ins acc => length (angle_list ins) + acc) 0 circuit.

(** The entries a constructed gate can hold: numbers whose modulus passes
    the test [np.abs(z) - 1 < _EPS]. *)
Definition passes_modulus_test (z : entry) : Prop :=
  match z with
  | Cplx re im => (np_abs re im - 1 < _EPS)%R
  | NonNumeric => False
  end.

(** * Validation *)

Section Validation.

Lemma math_log2_pow2 (k : nat) : math_log2 (2 ^ k) = Ok (Log2Int k).
Proof.
  unfold math_log2.
  assert (2 ^ k ≠ 0) as Hnz by (apply Nat.pow_nonzero; lia).
  apply Nat.eqb_neq in Hnz as ->.
  rewrite Nat.log2_pow2 by lia.
  by rewrite Nat.eqb_refl.
Qed.

Lemma math_log2_not_pow2 (n : nat) :
  n ≠ 0 → (∀ k, n ≠ 2 ^ k) → math_log2 n = Ok (Log2Frac (Nat.log2 n)).
Proof.
  intros Hnz Hnp. unfold math_log2.
  apply Nat.eqb_neq in Hnz as ->.
  destruct (Nat.eqb_spec (2 ^ Nat.log2 n) n) as [Heq|]; [|done].
  by destruct (Hnp (Nat.log2 n)).
Qed.

(** The float is [k] exactly on [2^k], and lies strictly between its
    truncation and the next integer otherwise. *)
Lemma math_log2_int (n k : nat) : math_log2 n = Ok (Log2Int k) ↔ n = 2 ^ k.
Proof.
  split; [|intros ->; apply math_log2_pow2].
  unfold math_log2. destruct (n =? 0); [done|].
  destruct (Nat.eqb_spec (2 ^ Nat.log2 n) n); [|done].
  intros [= <-]. done.
Qed.

Lemma math_log2_frac (n fl : nat) :
  math_log2 n = Ok (Log2Frac fl) → 2 ^ fl < n < 2 ^ (fl + 1).
Proof.
  unfold math_log2. destruct (Nat.eqb_spec n 0); [done|].
  destruct (Nat.eqb_spec (2 ^ Nat.log2 n) n) as [|Hne]; [done|].
  intros [= <-].
  pose proof (Nat.log2_spec n ltac:(lia)) as [Hlo Hhi].
  rewrite Nat.add_1_r. lia.
Qed.

Lemma np_abs_unit (re im : R) :
  (re * re + im * im = 1)%R → np_abs re im = 1%R.
Proof. intros H. unfold np_abs. rewrite H. apply sqrt_1. Qed.

Lemma check_entries_unit (diag : list entry) :
  Forall unit_modulus diag → check_entries diag = Ok tt.
Proof.
  induction 1 as [|z diag Hz _ IH]; [done|].
  destruct z as [re im|]; [|done]. simpl in *.
  rewrite np_abs_unit by done.
  destruct (Rlt_dec (1 - 1) _EPS) as [|Hn]; [done|].
  exfalso. apply Hn. unfold _EPS. lra.
Qed.

(** A list of [2^k] entries, [k >= 1], is accepted as soon as the loop
    over the entries passes. *)
Lemma DiagGate_init_pow2 (k : nat) (diag : list entry) :
  1 ≤ k → length diag = 2 ^ k → check_entries diag = Ok tt →
  DiagGate_init diag = Ok (mkDiagGate k diag).
Proof.
  intros Hk Hlen Hchk. unfold DiagGate_init.
  rewrite Hlen, math_log2_pow2. simpl.
  destruct (Nat.ltb_spec k 1); [lia|]. simpl.
  by rewrite Hchk.
Qed.

(** Every accepted list has length [2^k] with [k >= 1] the number of
    qubits of the gate, holds only numbers, and is kept as [params]. *)
Lemma DiagGate_init_Ok (diag : list entry) (g : DiagGate) :
  DiagGate_init diag = Ok g →
  1 ≤ num_qubits g ∧ length diag = 2 ^ num_qubits g ∧ params g = diag ∧
  check_entries diag = Ok tt.
Proof.
  unfold DiagGate_init.
  destruct (math_log2 (length diag)) as [v|] eqn:Hlog; [|done].
  simpl. destruct v as [k|fl]; simpl; [|by rewrite orb_true_r].
  rewrite orb_false_r. destruct (Nat.ltb_spec k 1); [done|].
  destruct (check_entries diag) as [[]|] eqn:Hchk; [|done].
  simpl. intros [= <-]. simpl.
  by apply math_log2_int in Hlog.
Qed.

Lemma DiagGate_init_bad_length (diag : list entry) :
  diag ≠ [] → (∀ k, 1 ≤ k → length diag ≠ 2 ^ k) →
  DiagGate_init diag = Raise (QiskitError NotPositivePowerOf2).
Proof.
  intros Hne Hnp. unfold DiagGate_init.
  destruct (math_log2 (length diag)) as [v|] eqn:Hlog.
  - simpl. destruct v as [k|fl]; simpl; [|by rewrite orb_true_r].
    apply math_log2_int in Hlog.
    destruct (Nat.ltb_spec k 1); [done|]. by destruct (Hnp k).
  - unfold math_log2 in Hlog.
    destruct (Nat.eqb_spec (length diag) 0) as [H0|]; [|by case_match].
    by destruct diag.
Qed.

End Validation.

Section ValidationClaims.

Local Open Scope R_scope.

Lemma np_abs_half : np_abs (1 / 2) 0 = 1 / 2.
Proof.
  unfold np_abs.
  replace (1 / 2 * (1 / 2) + 0 * 0) with ((1 / 2) * (1 / 2)) by lra.
  apply sqrt_square. lra.
Qed.

(** The loop over the entries passes exactly the lists of numbers whose
    modulus is below [1 + _EPS]: the test is one-sided. *)
Lemma check_entries_Ok (diag : list entry) :
  check_entries diag = Ok tt ↔
  Forall (λ z, ∃ re im, z = Cplx re im ∧ np_abs re im - 1 < _EPS) diag.
Proof.
  induction diag as [|z diag IH]; simpl.
  - split; [constructor|done].
  - rewrite Forall_cons. destruct z as [re im|].
    + destruct (Rlt_dec (np_abs re im - 1) _EPS) as [Hlt|Hnlt].
      * rewrite IH. split; [eauto|tauto].
      * split; [done|]. intros [(re' & im' & [= <- <-] & ?) _]. done.
    + split; [done|]. intros [(re' & im' & ? & ?) _]. done.
Qed.

(** An entry of modulus at least [1 + _EPS] is rejected. *)
Lemma check_entries_rejects_large (diag : list entry) (re im : R) :
  Cplx re im ∈ diag → _EPS <= np_abs re im - 1 → check_entries diag ≠ Ok tt.
Proof.
  intros Hin Hlarge Hchk%check_entries_Ok.
  destruct (proj1 (Forall_forall _ _) Hchk _ Hin) as (re' & im' & [= <- <-] & Hlt).
  lra.
Qed.

(** C2 (the code at the failing input): the two-entry diagonal [[0.5, 1]],
    whose first entry has modulus 0.5, is not rejected: the constructor
    returns the gate on one qubit.  The test [np.abs(z) - 1 < _EPS] holds
    for every modulus below 1. *)
Theorem DiagGate_init_accepts_modulus_half :
  np_abs (1 / 2) 0 = 1 / 2 ∧
  DiagGate_init [Cplx (1 / 2) 0; Cplx 1 0]
  = Ok (mkDiagGate 1 [Cplx (1 / 2) 0; Cplx 1 0]).
Proof.
  split; [apply np_abs_half|].
  apply (DiagGate_init_pow2 1); [lia|done|].
  apply check_entries_Ok. repeat constructor.
  - exists (1 / 2), 0. split; [done|]. rewrite np_abs_half. unfold _EPS. lra.
  - exists 1, 0. split; [done|]. rewrite np_abs_unit by lra. unfold _EPS. lra.
Qed.

(** C6 (the code at the failing input): the empty list, whose length 0 is
    not a power of two, is not rejected with a [QiskitError]: the
    constructor leaves with the [ValueError] of [math.log2(0)]. *)
Theorem DiagGate_init_empty_no_QiskitError :
  DiagGate_init [] = Raise ValueError ∧
  ∀ msg, DiagGate_init [] ≠ Raise (QiskitError msg).
Proof. split; [reflexivity|]. intros msg. discriminate. Qed.

(** C9: constructing the gate from the empty list fails with the
    [ValueError] of [math.log2(0)], whereas every other list whose length is
    not [2^k] with [k >= 1] is rejected with the [QiskitError] "The number of
    diagonal entries is not a positive power of 2.". *)
Theorem DiagGate_init_empty_ValueError :
  DiagGate_init [] = Raise ValueError ∧
  ∀ diag : list entry,
    diag ≠ [] → (∀ k, (1 ≤ k)%nat → length diag ≠ (2 ^ k)%nat) →
    DiagGate_init diag = Raise (QiskitError NotPositivePowerOf2).
Proof. split; [reflexivity|]. apply DiagGate_init_bad_length. Qed.

(** C7 (the code at the failing input): called with the empty diagonal
    and any list of qubits (for instance one qubit: no qubit count is
    [log2] of 0), [diag_gate] does not raise the [QiskitError] "The number
    of diagonal entries does not correspond to the number of qubits.": it
    leaves with the [ValueError] of [math.log2(0)], raised before the counts
    are compared.  The circuit is left as it was. *)
Theorem diag_gate_empty_diagonal_no_QiskitError
  (append : QuantumCircuit → DiagGate → list qubit →
            QuantumCircuit * result unit)
  (self : QuantumCircuit) (qubit : list qubit) :
  diag_gate append self [] qubit = (self, Raise ValueError) ∧
  ∀ msg, (diag_gate append self [] qubit).2 ≠ Raise (QiskitError msg).
Proof. split; [reflexivity|]. intros msg. discriminate. Qed.

(** On a diagonal that is not empty, a number of qubits that differs from
    [log2] of the number of diagonal entries makes [diag_gate] raise the
    [QiskitError] "The number of diagonal entries does not correspond to
    the number of qubits." before [self.append] is reached: the circuit is
    left as it was. *)
Lemma diag_gate_qubit_count_mismatch
  (append : QuantumCircuit → DiagGate → list qubit →
            QuantumCircuit * result unit)
  (self : QuantumCircuit) (diag : list entry) (qubit : list qubit) :
  diag ≠ [] → length diag ≠ (2 ^ length qubit)%nat →
  diag_gate append self diag qubit
  = (self, Raise (QiskitError QubitCountMismatch)).
Proof.
  intros Hne Hlen. unfold diag_gate.
  destruct (math_log2 (length diag)) as [v|e] eqn:Hlog.
  - destruct v as [k|fl]; simpl; [|done].
    apply math_log2_int in Hlog.
    destruct (Nat.eqb_spec (length qubit) k) as [Heq|]; [|done].
    by rewrite Heq in Hlen.
  - unfold math_log2 in Hlog.
    destruct (Nat.eqb_spec (length diag) 0) as [H0|]; [|by case_match].
    by destruct diag.
Qed.

End ValidationClaims.

(** A list of three entries: not empty, and 3 is not a power of two. *)
Lemma DiagGate_init_empty_ValueError_witness :
  [Cplx 1 0; Cplx 1 0; Cplx 1 0] ≠ [] ∧
  (∀ k, 1 ≤ k → length [Cplx 1 0; Cplx 1 0; Cplx 1 0] ≠ 2 ^ k) ∧
  DiagGate_init [Cplx 1 0; Cplx 1 0; Cplx 1 0]
  = Raise (QiskitError NotPositivePowerOf2).
Proof.
  assert (∀ k, 1 ≤ k → length [Cplx 1 0; Cplx 1 0; Cplx 1 0] ≠ 2 ^ k) as Hlen.
  { intros k Hk. simpl. destruct k as [|k]; [lia|].
    rewrite Nat.pow_succ_r'. lia. }
  split; [discriminate|]. split; [exact Hlen|].
  apply (proj2 DiagGate_init_empty_ValueError); [discriminate|exact Hlen].
Defined.

(** A diagonal of length 8 with two qubits, whatever [self.append] does. *)
Lemma diag_gate_qubit_count_mismatch_length_8 :
  ∀ append,
    diag_gate append [] (replicate 8 (Cplx 1 0)) [0; 1]
    = ([], Raise (QiskitError QubitCountMismatch)).
Proof.
  intros append.
  apply (diag_gate_qubit_count_mismatch append [] (replicate 8 (Cplx 1 0)) [0; 1]);
    simpl; [discriminate|lia].
Qed.

(** * One level of the reduction *)

Section Level.

Implicit Types (ps orig : list R) (i j m n s c : nat).

Lemma lookup_nth_lt ps i : i < length ps → ps !! i = Some (nth i ps 0%R).
Proof. intros Hi. destruct (nth_lookup_or_length ps i 0%R); [done|lia]. Qed.

Lemma length_means m ps : length (means m ps) = m.
Proof. unfold means. by rewrite length_fmap, length_seq. Qed.

Lemma length_deltas m ps : length (deltas m ps) = m.
Proof. unfold deltas. by rewrite length_fmap, length_seq. Qed.

Lemma means_S m ps : means (S m) ps = means m ps ++ [mean_at ps m].
Proof. unfold means. by rewrite seq_S, fmap_app. Qed.

Lemma lookup_means m ps i : i < m → means m ps !! i = Some (mean_at ps i).
Proof.
  intros Hi. unfold means.
  by rewrite list_lookup_fmap, lookup_seq_lt.
Qed.

Lemma lookup_deltas m ps i : i < m → deltas m ps !! i = Some (delta_at ps i).
Proof.
  intros Hi. unfold deltas.
  by rewrite list_lookup_fmap, lookup_seq_lt.
Qed.

Lemma range_step2_even m : range_step2 (2 * m) = (λ j, 2 * j) <$> seq 0 m.
Proof.
  unfold range_step2. f_equal. f_equal.
  symmetry. apply (Nat.div_unique _ 2 m 1); lia.
Qed.

(** The in-place loop, started after [s] pairs and run for [c] more: the
    list holds the [s] merged phases followed by the untouched entries of
    [orig] from position [s] on; no read fails and no entry is overwritten
    before it is read. *)
Lemma for_pairs_from orig c : ∀ s (acc : list R),
  2 * (s + c) ≤ length orig →
  for_pairs ((λ j, 2 * j) <$> seq s c) (means s orig ++ drop s orig) acc
  = Ok (means (s + c) orig ++ drop (s + c) orig,
        acc ++ (delta_at orig <$> seq s c)).
Proof.
  induction c as [|c IH]; intros s acc Hlen.
  - simpl. by rewrite Nat.add_0_r, app_nil_r.
  - cbn [seq fmap list_fmap for_pairs].
    assert ((means s orig ++ drop s orig) !! (2 * s)
            = Some (nth (2 * s) orig 0%R)) as ->.
    { rewrite lookup_app_r by (rewrite length_means; lia).
      rewrite length_means, lookup_drop.
      replace (s + (2 * s - s)) with (2 * s) by lia.
      apply lookup_nth_lt. lia. }
    assert ((means s orig ++ drop s orig) !! (2 * s + 1)
            = Some (nth (2 * s + 1) orig 0%R)) as ->.
    { rewrite lookup_app_r by (rewrite length_means; lia).
      rewrite length_means, lookup_drop.
      replace (s + (2 * s + 1 - s)) with (2 * s + 1) by lia.
      apply lookup_nth_lt. lia. }
    unfold _extract_rz.
    replace (2 * s / 2) with s
      by (apply (Nat.div_unique _ 2 s 0); lia).
    rewrite insert_app_r_alt by (rewrite length_means; lia).
    rewrite length_means, Nat.sub_diag.
    rewrite (drop_S orig (nth s orig 0%R) s) by (apply lookup_nth_lt; lia).
    cbn [insert list_insert].
    fold (mean_at orig s). fold (delta_at orig s).
    rewrite (cons_middle (mean_at orig s)), app_assoc, <- means_S.
    rewrite IH by lia.
    by rewrite <- Nat.add_succ_comm, <- app_assoc.
Qed.

(** One level on an even active length [n = 2 m]: the merged phases take
    the first [m] places, the angles are the [m] differences. *)
Lemma for_pairs_level ps m :
  2 * m ≤ length ps →
  for_pairs (range_step2 (2 * m)) ps []
  = Ok (means m ps ++ drop m ps, deltas m ps).
Proof.
  intros Hlen. rewrite range_step2_even.
  exact (for_pairs_from ps m 0 [] Hlen).
Qed.

End Level.

(** * The two-buffer reduction and the entry-wise description agree *)

Section Pairs.

Implicit Types (ps : list R) (i m : nat).

Lemma pairs_ind (P : list R → Prop) :
  P [] → (∀ p, P [p]) → (∀ p0 p1 rest, P rest → P (p0 :: p1 :: rest)) →
  ∀ ps, P ps.
Proof.
  intros Hnil Hone Hpair.
  assert (∀ ps, P ps ∧ ∀ p, P (p :: ps)) as H; [|intros ps; apply H].
  induction ps as [|p0 ps [IH1 IH2]]; [by split|].
  split; [apply IH2|]. intros p. by apply Hpair.
Qed.

Lemma div2_SS m : S (S m) / 2 = S (m / 2).
Proof.
  replace (S (S m)) with (m + 1 * 2) by lia.
  rewrite Nat.div_add by lia. lia.
Qed.

Lemma means_cons_cons m p0 p1 ps :
  means (S m) (p0 :: p1 :: ps) = ((p0 + p1) / 2)%R :: means m ps.
Proof.
  unfold means. cbn [seq fmap list_fmap]. f_equal.
  rewrite <- fmap_S_seq, <- list_fmap_compose.
  apply list_fmap_ext. intros _ i _. unfold mean_at; simpl.
  by replace (i + S (i + 0)) with (S (2 * i)) by lia.
Qed.

Lemma deltas_cons_cons m p0 p1 ps :
  deltas (S m) (p0 :: p1 :: ps) = (p1 - p0)%R :: deltas m ps.
Proof.
  unfold deltas. cbn [seq fmap list_fmap]. f_equal.
  rewrite <- fmap_S_seq, <- list_fmap_compose.
  apply list_fmap_ext. intros _ i _. unfold delta_at; simpl.
  by replace (i + S (i + 0)) with (S (2 * i)) by lia.
Qed.

Lemma merge_pairs_means ps : merge_pairs ps = means (length ps / 2) ps.
Proof.
  induction ps as [| |p0 p1 rest IH] using pairs_ind; [done..|].
  cbn [merge_pairs length]. by rewrite div2_SS, means_cons_cons, IH.
Qed.

Lemma delta_pairs_deltas ps : delta_pairs ps = deltas (length ps / 2) ps.
Proof.
  induction ps as [| |p0 p1 rest IH] using pairs_ind; [done..|].
  cbn [delta_pairs length]. by rewrite div2_SS, deltas_cons_cons, IH.
Qed.

Lemma nth_take_lt ps i n : i < n → nth i (take n ps) 0%R = nth i ps 0%R.
Proof. intros Hi. by rewrite !nth_lookup, lookup_take_lt. Qed.

Lemma means_take m ps : means m (take (2 * m) ps) = means m ps.
Proof.
  unfold means. apply list_fmap_ext. intros j i Hi.
  apply lookup_seq in Hi as [-> Hj]. unfold mean_at.
  by rewrite !nth_take_lt by lia.
Qed.

Lemma deltas_take m ps : deltas m (take (2 * m) ps) = deltas m ps.
Proof.
  unfold deltas. apply list_fmap_ext. intros j i Hi.
  apply lookup_seq in Hi as [-> Hj]. unfold delta_at.
  by rewrite !nth_take_lt by lia.
Qed.

Lemma half_double m : 2 * m / 2 = m.
Proof. symmetry. apply (Nat.div_unique _ 2 m 0); lia. Qed.

Lemma merge_pairs_take ps m :
  2 * m ≤ length ps → merge_pairs (take (2 * m) ps) = means m ps.
Proof.
  intros Hlen.
  by rewrite merge_pairs_means, length_take_le, half_double, means_take.
Qed.

Lemma delta_pairs_take ps m :
  2 * m ≤ length ps → delta_pairs (take (2 * m) ps) = deltas m ps.
Proof.
  intros Hlen.
  by rewrite delta_pairs_deltas, length_take_le, half_double, deltas_take.
Qed.

Lemma length_merge_pairs ps : length (merge_pairs ps) = length ps / 2.
Proof. by rewrite merge_pairs_means, length_means. Qed.

Lemma length_delta_pairs ps : length (delta_pairs ps) = length ps / 2.
Proof. by rewrite delta_pairs_deltas, length_deltas. Qed.

End Pairs.

(** * The loop over the levels *)

Section Loop.

Implicit Types (ph : list R) (circ : list instruction) (k m n : nat).

Lemma dec_loop_stop k n ph circ :
  n < 2 → dec_loop k n ph circ = Ok (circ, ph).
Proof.
  intros Hn. rewrite dec_loop_equation_1.
  destruct (le_lt_dec 2 n); [lia|done].
Qed.

Lemma dec_loop_step k n ph circ ph' ins :
  2 ≤ n → level k n ph = Ok (ph', ins) →
  dec_loop k n ph circ = dec_loop k (n / 2) ph' (circ ++ [ins]).
Proof.
  intros Hn Hlevel. rewrite dec_loop_equation_1.
  destruct (le_lt_dec 2 n); [|lia]. simpl. by rewrite Hlevel.
Qed.

Lemma dec_loop_raise k n ph circ e :
  2 ≤ n → level k n ph = Raise e → dec_loop k n ph circ = Raise e.
Proof.
  intros Hn Hlevel. rewrite dec_loop_equation_1.
  destruct (le_lt_dec 2 n); [|lia]. simpl. by rewrite Hlevel.
Qed.

Lemma pow2_pos m : 0 < 2 ^ m.
Proof. pose proof (Nat.pow_nonzero 2 m). lia. Qed.

Lemma slice_register k m :
  S m ≤ k → slice (k - S m + 1) k (QuantumRegister k) = seq (k - m) m.
Proof.
  intros Hm. unfold slice, QuantumRegister.
  rewrite drop_seq, take_seq. f_equal; lia.
Qed.

(** The level of active length [2^(m+1)] of a register of [k >= m + 1]
    qubits: target [q[k - m - 1]], controls [q[k - m], ..., q[k - 1]]. *)
Lemma level_pow2 k m ph :
  S m ≤ k → 2 ^ S m ≤ length ph →
  level k (2 ^ S m) ph
  = Ok (means (2 ^ m) ph ++ drop (2 ^ m) ph,
        UCZ (deltas (2 ^ m) ph) (seq (k - m) m) (k - S m)).
Proof.
  intros Hm Hlen. unfold level.
  rewrite (Nat.log2_pow2 (S m)) by lia.
  rewrite slice_register by done.
  rewrite Nat.pow_succ_r' in *. rewrite for_pairs_level by done.
  unfold QuantumRegister. rewrite lookup_seq_lt by lia. done.
Qed.

Lemma two_buffer_loop_length k m : ∀ cur circ,
  length (two_buffer_loop k m cur circ).1 = length circ + m.
Proof.
  induction m as [|m IH]; intros cur circ; simpl; [lia|].
  rewrite IH, length_app. simpl. lia.
Qed.

Lemma two_buffer_loop_app k m : ∀ cur circ,
  (two_buffer_loop k m cur circ).1 = circ ++ (two_buffer_loop k m cur []).1.
Proof.
  induction m as [|m IH]; intros cur circ; simpl; [by rewrite app_nil_r|].
  rewrite IH. rewrite (IH _ [_]). by rewrite <- app_assoc.
Qed.

Lemma two_buffer_loop_final k m : ∀ cur circ circ',
  (two_buffer_loop k m cur circ).2 = (two_buffer_loop k m cur circ').2.
Proof. induction m as [|m IH]; intros cur circ circ'; simpl; [done|apply IH]. Qed.

(** The in-place loop started on an active length [2^m] runs the [m]
    levels of the two-buffer reduction of the active part: same circuit,
    and the phase left in [diag_phases[0]] is the one left in the buffer. *)
Lemma dec_loop_two_buffer k m : ∀ ph circ,
  m ≤ k → 2 ^ m ≤ length ph →
  ∃ ph_final,
    dec_loop k (2 ^ m) ph circ
    = Ok ((two_buffer_loop k m (take (2 ^ m) ph) circ).1, ph_final) ∧
    take 1 ph_final = (two_buffer_loop k m (take (2 ^ m) ph) circ).2.
Proof.
  induction m as [|m IH]; intros ph circ Hm Hlen.
  - exists ph. by rewrite dec_loop_stop by (simpl; lia).
  - assert (2 ≤ 2 ^ S m) as H2.
    { rewrite Nat.pow_succ_r'. pose proof (pow2_pos m). lia. }
    rewrite (dec_loop_step _ _ _ _ _ _ H2 (level_pow2 k m ph Hm Hlen)).
    rewrite Nat.pow_succ_r', half_double.
    rewrite Nat.pow_succ_r' in Hlen.
    destruct (IH (means (2 ^ m) ph ++ drop (2 ^ m) ph)
                 (circ ++ [UCZ (deltas (2 ^ m) ph) (seq (k - m) m) (k - S m)]))
      as (ph_final & Hrun & Hfinal); [lia| |].
    { rewrite length_app, length_means. lia. }
    exists ph_final. cbn [two_buffer_loop].
    rewrite length_take_le, <- Nat.pow_succ_r', Nat.log2_pow2 by lia.
    rewrite Nat.pow_succ_r', merge_pairs_take, delta_pairs_take by done.
    rewrite take_app_length' in Hrun, Hfinal by (by rewrite length_means).
    replace (k - S m + 1) with (k - m) by lia.
    replace (S m - 1) with m by lia.
    done.
Qed.

End Loop.

(** * Closed form of the emitted circuit *)

Section ClosedForm.

Implicit Types (cur : list R) (k m j : nat).

Lemma length_iter_merge_pairs j : ∀ m cur,
  length cur = 2 ^ (j + m) → length (Nat.iter j merge_pairs cur) = 2 ^ m.
Proof.
  induction j as [|j IH]; intros m cur Hlen; [done|].
  rewrite Nat.iter_succ, length_merge_pairs.
  rewrite (IH (S m)) by (by rewrite <- Nat.add_succ_comm).
  by rewrite Nat.pow_succ_r', half_double.
Qed.

(** Level [j] (counted from 0, in emission order) of a reduction of [m]
    levels works on the vector merged [j] times; its target is qubit
    [k - m + j] and its controls are the [m - 1 - j] qubits after it. *)
Lemma two_buffer_loop_closed k m : ∀ cur,
  m ≤ k → length cur = 2 ^ m →
  (two_buffer_loop k m cur []).1
  = (λ j, UCZ (delta_pairs (Nat.iter j merge_pairs cur))
              (seq (k - m + j + 1) (m - 1 - j)) (k - m + j)) <$> seq 0 m.
Proof.
  induction m as [|m IH]; intros cur Hm Hlen; [done|].
  cbn [two_buffer_loop seq fmap list_fmap].
  rewrite two_buffer_loop_app, Hlen, Nat.log2_pow2 by lia.
  cbn [app]. f_equal.
  - simpl. f_equal; [f_equal|]; lia.
  - rewrite IH; [|lia|].
    2:{ rewrite length_merge_pairs, Hlen. by rewrite Nat.pow_succ_r', half_double. }
    rewrite <- fmap_S_seq, <- list_fmap_compose.
    apply list_fmap_ext. intros _ j _. cbn [compose].
    rewrite Nat.iter_swap, <- Nat.iter_succ. f_equal; [f_equal|]; lia.
Qed.

Lemma two_buffer_loop_closed_final k m : ∀ cur circ,
  (two_buffer_loop k m cur circ).2 = Nat.iter m merge_pairs cur.
Proof.
  induction m as [|m IH]; intros cur circ; [done|].
  cbn [two_buffer_loop]. by rewrite IH, Nat.iter_swap, <- Nat.iter_succ.
Qed.

End ClosedForm.

(** * Runs from a constructed gate *)

Section Validated.

Implicit Types (diag : list entry) (g : DiagGate).

Lemma phases_of_checked diag :
  check_entries diag = Ok tt → phases_of diag = Ok (entry_phase <$> diag).
Proof.
  induction diag as [|z diag IH]; [done|].
  destruct z as [re im|]; [|done]. simpl.
  destruct (Rlt_dec _ _); [|done]. intros Hchk.
  by rewrite IH.
Qed.

(** On a constructed gate of [k] qubits, [_dec_diag] returns, without
    raising, the circuit of the [k] levels of the two-buffer reduction of the
    phases of the diagonal. *)
Lemma dec_diag_state_validated diag g :
  DiagGate_init diag = Ok g →
  ∃ ph_final,
    dec_diag_state g
    = Ok ((two_buffer_loop (num_qubits g) (num_qubits g)
             (entry_phase <$> diag) []).1, ph_final) ∧
    take 1 ph_final = Nat.iter (num_qubits g) merge_pairs (entry_phase <$> diag).
Proof.
  intros (Hk & Hlen & Hparams & Hchk)%DiagGate_init_Ok.
  unfold dec_diag_state. rewrite Hparams, phases_of_checked by done.
  cbn [mbind result_bind]. rewrite Hlen.
  destruct (dec_loop_two_buffer (num_qubits g) (num_qubits g)
              (entry_phase <$> diag) []) as (ph_final & Hrun & Hfinal);
    [done|by rewrite length_fmap, Hlen|].
  assert (take (2 ^ num_qubits g) (entry_phase <$> diag)
          = entry_phase <$> diag) as Htake.
  { apply take_ge. rewrite length_fmap. lia. }
  rewrite Htake in Hrun, Hfinal.
  exists ph_final. split; [done|].
  by rewrite Hfinal, two_buffer_loop_closed_final.
Qed.

Lemma dec_diag_validated diag g :
  DiagGate_init diag = Ok g →
  _dec_diag g
  = Ok (two_buffer_loop (num_qubits g) (num_qubits g)
          (entry_phase <$> diag) []).1.
Proof.
  intros (ph_final & Hrun & _)%dec_diag_state_validated.
  unfold _dec_diag. by rewrite Hrun.
Qed.

End Validated.

(** * Levels, order and termination *)

Section Levels.

Implicit Types (diag : list entry) (g : DiagGate) (ph : list R).
Implicit Types (circ : list instruction) (k m j : nat).

(** From an active length [2^m] the loop body runs exactly [m] times,
    reaches [n = 1], where the loop test fails, and [dec_loop] returns the
    state reached. *)
Lemma dec_loop_nsteps k m : ∀ ph circ,
  m ≤ k → 2 ^ m ≤ length ph →
  ∃ ph_final circuit,
    nsteps (while_step k) m (2 ^ m, ph, circ) (1, ph_final, circuit) ∧
    dec_loop k (2 ^ m) ph circ = Ok (circuit, ph_final).
Proof.
  induction m as [|m IH]; intros ph circ Hm Hlen.
  - exists ph, circ. split; [constructor|]. apply dec_loop_stop. simpl; lia.
  - assert (2 ≤ 2 ^ S m) as H2.
    { rewrite Nat.pow_succ_r'. pose proof (pow2_pos m). lia. }
    pose proof (level_pow2 k m ph Hm Hlen) as Hlevel.
    destruct (IH (means (2 ^ m) ph ++ drop (2 ^ m) ph)
                 (circ ++ [UCZ (deltas (2 ^ m) ph) (seq (k - m) m) (k - S m)]))
      as (ph_final & circuit & Hsteps & Hrun); [lia| |].
    { rewrite length_app, length_means, length_drop.
      rewrite Nat.pow_succ_r' in Hlen. lia. }
    exists ph_final, circuit. split.
    + eapply nsteps_l; [by apply while_iteration|].
      by rewrite Nat.pow_succ_r', half_double.
    + rewrite (dec_loop_step _ _ _ _ _ _ H2 Hlevel).
      by rewrite Nat.pow_succ_r', half_double.
Qed.

Lemma lookup_two_buffer_closed k cur j ins :
  length cur = 2 ^ k →
  (two_buffer_loop k k cur []).1 !! j = Some ins →
  j < k ∧
  ins = UCZ (delta_pairs (Nat.iter j merge_pairs cur)) (seq (j + 1) (k - 1 - j)) j.
Proof.
  intros Hlen. rewrite two_buffer_loop_closed by done.
  rewrite list_lookup_fmap.
  destruct (seq 0 k !! j) as [j'|] eqn:Hj; [|done].
  apply lookup_seq in Hj as [-> Hj]. simpl. intros [= <-].
  split; [done|]. f_equal; [f_equal|]; lia.
Qed.

End Levels.

Section LevelClaims.

Implicit Types (diag : list entry) (g : DiagGate) (ph : list R).
Implicit Types (circ : list instruction) (k m j : nat).

(** C8: on a constructed gate, whose diagonal has length [2^k] for its
    number [k] of qubits, the loop of [_dec_diag] starts with [n = 2^k],
    executes its body exactly [k] times, halving [n] down to 1 where the
    test [n >= 2] fails, and [_dec_diag] returns a circuit of exactly [k]
    instructions, one per level, the one of level [j] holding
    [2^(k - 1 - j)] angles. *)
Theorem dec_diag_terminates_after_k_levels diag g :
  DiagGate_init diag = Ok g →
  ∃ ps ph_final circuit,
    length (params g) = 2 ^ num_qubits g ∧
    phases_of (params g) = Ok ps ∧
    nsteps (while_step (num_qubits g)) (num_qubits g)
      (length (params g), ps, []) (1, ph_final, circuit) ∧
    _dec_diag g = Ok circuit ∧
    length circuit = num_qubits g ∧
    ∀ j ins, circuit !! j = Some ins →
      length (angle_list ins) = 2 ^ (num_qubits g - 1 - j).
Proof.
  intros Hinit.
  pose proof (DiagGate_init_Ok _ _ Hinit) as (Hk & Hlen & Hparams & Hchk).
  destruct g as [k params0]. simpl in Hk, Hlen, Hparams. subst params0.
  cbn [num_qubits params].
  set (ps := entry_phase <$> diag).
  assert (length ps = 2 ^ k) as Hps by (unfold ps; by rewrite length_fmap).
  destruct (dec_loop_nsteps k k ps []) as (ph_final & circuit & Hsteps & Hrun);
    [done|lia|].
  assert (_dec_diag (mkDiagGate k diag) = Ok circuit) as Hdec.
  { unfold _dec_diag, dec_diag_state. cbn [num_qubits params].
    rewrite phases_of_checked by done.
    cbn [mbind result_bind]. fold ps. by rewrite Hlen, Hrun. }
  assert (circuit = (two_buffer_loop k k ps []).1) as ->.
  { rewrite (dec_diag_validated _ _ Hinit) in Hdec. by injection Hdec. }
  exists ps, ph_final, (two_buffer_loop k k ps []).1.
  rewrite Hlen.
  split_and!; [done|by apply phases_of_checked|done|done| |].
  - by rewrite two_buffer_loop_length.
  - intros j ins [Hj ->]%lookup_two_buffer_closed; [|done]. simpl.
    rewrite length_delta_pairs.
    rewrite (length_iter_merge_pairs j (k - j)) by (rewrite Hps; f_equal; lia).
    replace (k - j) with (S (k - 1 - j)) by lia.
    by rewrite Nat.pow_succ_r', half_double.
Qed.

(** C3 (amended): the circuit of a constructed gate on [k] qubits is
    emitted finest level first: instruction [j] (from 0) targets qubit
    [q[j]] and is controlled by the [k - 1 - j] qubits [q[j+1], ...,
    q[k-1]]; so the first instruction has the most controls ([k - 1]) and
    targets the first qubit, the last one has no control and targets the
    last qubit, and the target index moves from the first qubit toward the
    last as [n] halves. *)
Theorem dec_diag_finest_level_first diag g :
  DiagGate_init diag = Ok g →
  ∃ circuit,
    _dec_diag g = Ok circuit ∧
    length circuit = num_qubits g ∧
    ∀ j ins, circuit !! j = Some ins →
      q_target ins = j ∧
      q_controls ins = seq (j + 1) (num_qubits g - 1 - j).
Proof.
  intros Hinit.
  pose proof (DiagGate_init_Ok _ _ Hinit) as (Hk & Hlen & Hparams & Hchk).
  eexists. split; [by apply dec_diag_validated|].
  split; [by rewrite two_buffer_loop_length|].
  intros j ins [Hj ->]%lookup_two_buffer_closed; [done|].
  by rewrite length_fmap.
Qed.

(** C5: at the level of active length [n = 2^(m+1)] the loop body
    succeeds and appends one instruction; for every pair index [i < n / 2],
    position [i] of the updated phase vector holds
    [(phase[2i] + phase[2i+1]) / 2] and angle [i] of that instruction is
    [phase[2i+1] - phase[2i]], the instruction holding exactly [n / 2]
    angles. *)
Theorem level_merges_pairs_in_order k m ph circ :
  S m ≤ k → 2 ^ S m ≤ length ph →
  ∃ ph' ins,
    level k (2 ^ S m) ph = Ok (ph', ins) ∧
    dec_loop k (2 ^ S m) ph circ
    = dec_loop k (2 ^ S m / 2) ph' (circ ++ [ins]) ∧
    length (angle_list ins) = 2 ^ S m / 2 ∧
    ∀ i, i < 2 ^ S m / 2 →
      ∃ p0 p1,
        ph !! (2 * i) = Some p0 ∧ ph !! (2 * i + 1) = Some p1 ∧
        ph' !! i = Some ((p0 + p1) / 2)%R ∧
        angle_list ins !! i = Some (p1 - p0)%R.
Proof.
  intros Hm Hlen.
  assert (2 ≤ 2 ^ S m) as H2.
  { rewrite Nat.pow_succ_r'. pose proof (pow2_pos m). lia. }
  pose proof (level_pow2 k m ph Hm Hlen) as Hlevel.
  eexists _, _. split; [exact Hlevel|].
  split; [by apply dec_loop_step|].
  rewrite Nat.pow_succ_r', half_double. rewrite Nat.pow_succ_r' in Hlen.
  cbn [angle_list]. split; [apply length_deltas|].
  intros i Hi.
  exists (nth (2 * i) ph 0%R), (nth (2 * i + 1) ph 0%R).
  split; [apply lookup_nth_lt; lia|].
  split; [apply lookup_nth_lt; lia|].
  split.
  - rewrite lookup_app_l by (by rewrite length_means).
    by apply lookup_means.
  - by apply lookup_deltas.
Qed.

(** C10: the in-place loop refines the two-buffer reduction.  On an even
    active length [2 m] the level leaves in the first [m] places the vector
    [[(p0 + p1) / 2; (p2 + p3) / 2; ...]] of the active part, records the
    angles [[p1 - p0; p3 - p2; ...]], and touches nothing else; and the
    whole loop from an active length [2^m] emits the circuit of the
    two-buffer reduction and leaves its last phase in place 0. *)
Theorem in_place_refines_two_buffer :
  (∀ ph m, 2 * m ≤ length ph →
     ∃ ph' angles_rz,
       for_pairs (range_step2 (2 * m)) ph [] = Ok (ph', angles_rz) ∧
       take m ph' = merge_pairs (take (2 * m) ph) ∧
       drop m ph' = drop m ph ∧
       angles_rz = delta_pairs (take (2 * m) ph)) ∧
  (∀ k m ph circ, m ≤ k → 2 ^ m ≤ length ph →
     ∃ ph_final,
       dec_loop k (2 ^ m) ph circ
       = Ok ((two_buffer_loop k m (take (2 ^ m) ph) circ).1, ph_final) ∧
       take 1 ph_final = (two_buffer_loop k m (take (2 ^ m) ph) circ).2).
Proof.
  split.
  - intros ph m Hlen. eexists _, _.
    split; [by apply for_pairs_level|].
    rewrite take_app_length', drop_app_length' by (by rewrite length_means).
    by rewrite merge_pairs_take, delta_pairs_take.
  - intros k m ph circ. apply dec_loop_two_buffer.
Qed.

End LevelClaims.

(** * Phases and complex exponentials *)

Section Complex.

Local Open Scope R_scope.

Lemma Cmult_assoc (a b c : C) : Cmult a (Cmult b c) = Cmult (Cmult a b) c.
Proof.
  destruct a as [a1 a2], b as [b1 b2], c as [c1 c2].
  unfold Cmult; simpl. f_equal; ring.
Qed.

Lemma Cexp_add (x y : R) : Cexp (x + y) = Cmult (Cexp x) (Cexp y).
Proof.
  unfold Cexp, Cmult; simpl. rewrite cos_plus, sin_plus. f_equal; ring.
Qed.

Lemma Cexp_0_l (z : C) : Cmult (Cexp 0) z = z.
Proof.
  destruct z as [z1 z2]. unfold Cexp, Cmult; simpl.
  rewrite cos_0, sin_0. f_equal; ring.
Qed.

Lemma atan2_1_0 : atan2 0 1 = 0.
Proof.
  unfold atan2. destruct (Rlt_dec 0 1) as [_|Hn]; [|lra].
  replace (0 / 1) with 0 by lra. apply atan_0.
Qed.

Lemma atan2_m1_0 : atan2 0 (-1) = PI.
Proof.
  unfold atan2. destruct (Rlt_dec 0 (-1)) as [|_]; [lra|].
  destruct (Rlt_dec (-1) 0) as [_|]; [|lra].
  destruct (Rle_dec 0 0) as [_|]; [|lra].
  replace (0 / -1) with 0 by lra. rewrite atan_0. lra.
Qed.

Lemma sqrt_inv_sqr (x : R) : 0 < x → sqrt (/ (x * x)) = / x.
Proof.
  intros Hx. replace (/ (x * x)) with (/ x * / x) by (field; lra).
  apply sqrt_square. left. by apply Rinv_0_lt_compat.
Qed.

Lemma one_plus_sqr_ratio (x y : R) :
  x ≠ 0 → x * x + y * y = 1 → 1 + (y / x)² = / (x * x).
Proof. intros Hx Hxy. unfold Rsqr. field_simplify_eq; [lra|done]. Qed.

Lemma cos_sin_atan_pos (x y : R) :
  0 < x → x * x + y * y = 1 →
  cos (atan (y / x)) = x ∧ sin (atan (y / x)) = y.
Proof.
  intros Hx Hxy. rewrite cos_atan, sin_atan.
  rewrite one_plus_sqr_ratio by (done || lra).
  rewrite sqrt_inv_sqr by done.
  split; field; lra.
Qed.

Lemma cos_sin_atan_neg (x y : R) :
  x < 0 → x * x + y * y = 1 →
  cos (atan (y / x)) = - x ∧ sin (atan (y / x)) = - y.
Proof.
  intros Hx Hxy.
  replace (y / x) with ((- y) / (- x)) by (field; lra).
  apply cos_sin_atan_pos; lra.
Qed.

(** On the unit circle the phase recovers the number. *)
Lemma Cexp_atan2 (re im : R) :
  re * re + im * im = 1 → Cexp (atan2 im re) = (re, im).
Proof.
  intros Hunit. unfold Cexp, atan2.
  destruct (Rlt_dec 0 re) as [Hpos|Hnpos].
  { by destruct (cos_sin_atan_pos re im Hpos Hunit) as [-> ->]. }
  destruct (Rlt_dec re 0) as [Hneg|Hnneg].
  { destruct (cos_sin_atan_neg re im Hneg Hunit) as [Hc Hs].
    destruct (Rle_dec 0 im).
    - rewrite neg_cos, neg_sin, Hc, Hs. f_equal; lra.
    - unfold Rminus. rewrite cos_plus, sin_plus, cos_neg, sin_neg.
      rewrite cos_PI, sin_PI, Hc, Hs. f_equal; lra. }
  assert (re = 0) as -> by lra.
  assert (im * im = 1) as Him by lra.
  destruct (Rlt_dec 0 im) as [Hip|Hnip].
  { rewrite cos_PI2, sin_PI2. f_equal. nra. }
  destruct (Rlt_dec im 0) as [Hin|Hnin].
  { rewrite cos_neg, sin_neg, cos_PI2, sin_PI2. f_equal. nra. }
  nra.
Qed.

End Complex.

(** * The unitary of the emitted circuit *)

Section Unitary.

Implicit Types (cur : list R) (circ : list instruction) (b k m s c : nat).

Lemma bit_of_testbit b s :
  (if Nat.testbit b s then 1 else 0) = (b / 2 ^ s) mod 2.
Proof. rewrite <- Nat.testbit_spec'. by destruct (Nat.testbit b s). Qed.

(** The pattern read on the controls [q[s], ..., q[s + c - 1]] is the
    number made of the bits [s, ..., s + c - 1] of the basis state. *)
Lemma control_pattern_seq b c : ∀ s,
  control_pattern (seq s c) b = (b / 2 ^ s) mod 2 ^ c.
Proof.
  induction c as [|c IH]; intros s.
  - cbn [seq control_pattern]. by rewrite Nat.pow_0_r, Nat.mod_1_r.
  - cbn [seq control_pattern]. rewrite IH, bit_of_testbit.
    rewrite (Nat.pow_succ_r' 2 c), Nat.Div0.mod_mul_r.
    rewrite (Nat.pow_succ_r' 2 s), <- Nat.Div0.div_div.
    by rewrite !Nat.Div0.div_div, (Nat.mul_comm 2 (2 ^ s)).
Qed.

Lemma shift_split b s :
  b / 2 ^ s = 2 * (b / 2 ^ S s) + (if Nat.testbit b s then 1 else 0).
Proof.
  rewrite bit_of_testbit, Nat.pow_succ_r'.
  rewrite (Nat.mul_comm 2 (2 ^ s)), <- Nat.Div0.div_div.
  apply Nat.div_mod_eq.
Qed.

Lemma circuit_phase_app circ circ' b :
  circuit_phase (circ ++ circ') b
  = (circuit_phase circ b + circuit_phase circ' b)%R.
Proof.
  unfold circuit_phase. induction circ as [|ins circ IH]; simpl; [lra|].
  rewrite IH. lra.
Qed.

(** Running the circuit multiplies each amplitude by the exponential of the
    accumulated phase of its basis state. *)
Lemma run_circuit_phase circ : ∀ (psi : state) b,
  run_circuit circ psi b = Cmult (Cexp (circuit_phase circ b)) (psi b).
Proof.
  unfold run_circuit, circuit_phase.
  induction circ as [|ins circ IH]; intros psi b; simpl.
  - by rewrite Cexp_0_l.
  - rewrite IH. unfold apply_ucz.
    rewrite Cmult_assoc, <- Cexp_add. f_equal. f_equal. lra.
Qed.

(** The phases given by the [m] levels of the reduction of [cur], plus the
    phase left at the end, add up to the entry of [cur] selected by the
    [m] high bits of the basis state. *)
Lemma two_buffer_loop_phase k m : ∀ cur b,
  m ≤ k → length cur = 2 ^ m → b < 2 ^ k →
  (circuit_phase (two_buffer_loop k m cur []).1 b
   + nth 0 (two_buffer_loop k m cur []).2 0)%R
  = nth (b / 2 ^ (k - m)) cur 0%R.
Proof.
  induction m as [|m IH]; intros cur b Hm Hlen Hb.
  - simpl. rewrite Nat.sub_0_r, Nat.div_small by done. lra.
  - cbn [two_buffer_loop]. rewrite two_buffer_loop_app.
    rewrite (two_buffer_loop_final _ _ _ _ []).
    rewrite circuit_phase_app, Hlen, Nat.log2_pow2 by lia.
    assert (length (merge_pairs cur) = 2 ^ m) as Hlen'.
    { by rewrite length_merge_pairs, Hlen, Nat.pow_succ_r', half_double. }
    specialize (IH (merge_pairs cur) b ltac:(lia) Hlen' Hb).
    set (i := b / 2 ^ (k - m)) in *.
    assert (i < 2 ^ m) as Hi.
    { apply Nat.Div0.div_lt_upper_bound.
      rewrite <- Nat.pow_add_r. by replace (k - m + m) with k by lia. }
    assert (nth i (merge_pairs cur) 0%R = mean_at cur i) as Hmean.
    { rewrite merge_pairs_means, Hlen, Nat.pow_succ_r', half_double.
      by apply nth_lookup_Some, lookup_means. }
    rewrite Hmean in IH.
    replace (circuit_phase [] b) with 0%R by done.
    cbn [app circuit_phase foldr].
    unfold ucz_phase at 1. cbn [q_controls angle_list q_target].
    replace (k - S m + 1) with (k - m) by lia.
    replace (S m - 1) with m by lia.
    rewrite control_pattern_seq. fold i. rewrite Nat.mod_small by done.
    assert (nth i (delta_pairs cur) 0%R = delta_at cur i) as ->.
    { rewrite delta_pairs_deltas, Hlen, Nat.pow_succ_r', half_double.
      by apply nth_lookup_Some, lookup_deltas. }
    rewrite (shift_split b (k - S m)).
    replace (S (k - S m)) with (k - m) by lia. fold i.
    unfold mean_at, delta_at in *.
    destruct (Nat.testbit b (k - S m)).
    + replace (2 * i + 1) with (2 * i + 1) by done. lra.
    + rewrite Nat.add_0_r. lra.
Qed.

End Unitary.

Section UnitaryClaims.

Implicit Types (diag : list entry) (k b : nat).

Lemma entry_value_phase diag b :
  Forall unit_modulus diag → b < length diag →
  Cexp (nth b (entry_phase <$> diag) 0%R) = entry_value (nth b diag NonNumeric).
Proof.
  intros Hunit Hb.
  destruct (lookup_lt_is_Some_2 diag b Hb) as [z Hz].
  rewrite (nth_lookup_Some _ _ _ (entry_phase z))
    by (by rewrite list_lookup_fmap, Hz).
  rewrite (nth_lookup_Some _ _ _ z Hz).
  pose proof (proj1 (Forall_lookup _ _) Hunit b z Hz) as Hzunit.
  destruct z as [re im|]; [|done]. simpl. by apply Cexp_atan2.
Qed.

(** C1: a list of [2^k] complex numbers of modulus 1, [k >= 1], is accepted
    by the constructor, [_dec_diag] returns a circuit for it, and running
    the emitted uniformly-controlled Z-rotations in order on any state of
    the [2^k]-dimensional space gives, on every basis state, the amplitude
    that the diagonal matrix gives, up to the one scalar
    [exp(1j * global_phase)], where [global_phase] is the phase left in
    [diag_phases[0]] when the loop ends.  (Exact equality: phases are
    reals.) *)
Theorem dec_diag_reproduces_diagonal k diag :
  1 ≤ k → length diag = 2 ^ k → Forall unit_modulus diag →
  ∃ g circuit ph_final global_phase,
    DiagGate_init diag = Ok g ∧ num_qubits g = k ∧
    dec_diag_state g = Ok (circuit, ph_final) ∧
    _dec_diag g = Ok circuit ∧
    ph_final !! 0 = Some global_phase ∧
    ∀ (psi : state) b, b < 2 ^ k →
      Cmult (Cexp global_phase) (run_circuit circuit psi b)
      = apply_diag diag psi b.
Proof.
  intros Hk Hlen Hunit.
  pose proof (DiagGate_init_pow2 k diag Hk Hlen (check_entries_unit _ Hunit))
    as Hinit.
  destruct (dec_diag_state_validated _ _ Hinit) as (ph_final & Hrun & Hfinal).
  cbn [num_qubits] in Hrun, Hfinal.
  set (ps := entry_phase <$> diag) in *.
  assert (length ps = 2 ^ k) as Hps by (unfold ps; by rewrite length_fmap).
  rewrite <- (two_buffer_loop_closed_final k k ps []) in Hfinal.
  pose proof (length_iter_merge_pairs k 0 ps) as Hone.
  rewrite Nat.add_0_r, <- (two_buffer_loop_closed_final k k ps []) in Hone.
  specialize (Hone Hps). rewrite <- Hfinal in Hone.
  destruct ph_final as [|global_phase ph_rest]; [done|].
  exists (mkDiagGate k diag), (two_buffer_loop k k ps []).1,
    (global_phase :: ph_rest), global_phase.
  split_and!; [done|done|done| |done|].
  { by apply dec_diag_validated in Hinit. }
  intros psi b Hb. unfold apply_diag.
  rewrite run_circuit_phase, Cmult_assoc, <- Cexp_add.
  rewrite <- entry_value_phase by (done || lia). fold ps.
  f_equal. f_equal.
  pose proof (two_buffer_loop_phase k k ps b ltac:(lia) Hps Hb) as Hsum.
  rewrite <- Hfinal, Nat.sub_diag, Nat.pow_0_r, Nat.div_1_r in Hsum.
  simpl in Hsum. lra.
Qed.

End UnitaryClaims.

(** The round trip at the controlled-Z diagonal, [k = 2]. *)
Lemma dec_diag_reproduces_diagonal_witness :
  ∃ g circuit ph_final global_phase,
    DiagGate_init cz_diag = Ok g ∧ num_qubits g = 2 ∧
    dec_diag_state g = Ok (circuit, ph_final) ∧
    _dec_diag g = Ok circuit ∧
    ph_final !! 0 = Some global_phase ∧
    ∀ (psi : state) b, b < 2 ^ 2 →
      Cmult (Cexp global_phase) (run_circuit circuit psi b)
      = apply_diag cz_diag psi b.
Proof.
  apply (dec_diag_reproduces_diagonal 2 cz_diag); [lia|reflexivity|].
  unfold cz_diag. repeat constructor; simpl; lra.
Defined.

(** * The controlled-Z diagonal *)

Section ControlledZ.

Local Open Scope R_scope.

Lemma cz_phases : entry_phase <$> cz_diag = [0; 0; 0; PI].
Proof.
  unfold cz_diag. cbn [fmap list_fmap entry_phase].
  by rewrite atan2_1_0, atan2_m1_0.
Qed.

Lemma cz_unit_modulus : Forall unit_modulus cz_diag.
Proof. unfold cz_diag. repeat constructor; simpl; lra. Qed.

Lemma cz_init : DiagGate_init cz_diag = Ok (mkDiagGate 2 cz_diag).
Proof.
  apply DiagGate_init_pow2; [lia|done|].
  apply check_entries_unit, cz_unit_modulus.
Qed.

Lemma cz_two_buffer :
  two_buffer_loop 2 2 [0; 0; 0; PI] []
  = ([UCZ [0; PI] [1%nat] 0%nat; UCZ [PI / 2] [] 1%nat], [PI / 4]).
Proof.
  cbn [two_buffer_loop merge_pairs delta_pairs length app].
  change (Nat.log2 4) with 2%nat. change (Nat.log2 2) with 1%nat.
  cbn [Nat.sub Nat.add seq].
  replace (0 - 0) with 0 by lra.
  replace (PI - 0) with PI by lra.
  replace ((0 + PI) / 2 - (0 + 0) / 2) with (PI / 2) by lra.
  replace (((0 + 0) / 2 + (0 + PI) / 2) / 2) with (PI / 4) by lra.
  reflexivity.
Qed.

End ControlledZ.

Section ControlledZClaims.

Local Open Scope R_scope.

Lemma cz_dec_diag :
  _dec_diag (mkDiagGate 2 cz_diag)
  = Ok [UCZ [0; PI] [1%nat] 0%nat; UCZ [PI / 2] [] 1%nat].
Proof.
  rewrite (dec_diag_validated _ _ cz_init). cbn [num_qubits].
  by rewrite cz_phases, cz_two_buffer.
Qed.

(** C4 (amended): for the diagonal [[1, 1, 1, -1]] the extracted phases
    are [[0, 0, 0, pi]] and [_dec_diag] emits two instructions.  The first
    has one control ([q[1]]) and target [q[0]], with the angles [[0, pi]]:
    the differences [phase[2i+1] - phase[2i]] of the extracted phases.  The
    second has no control and target [q[1]], with the angle [pi / 2].  The
    phase left in [diag_phases[0]] is [pi / 4]. *)
Theorem dec_diag_controlled_z :
  ∃ g ph_final,
    DiagGate_init cz_diag = Ok g ∧ num_qubits g = 2%nat ∧
    phases_of (params g) = Ok [0; 0; 0; PI] ∧
    delta_pairs [0; 0; 0; PI] = [0; PI] ∧
    dec_diag_state g
    = Ok ([UCZ [0; PI] [1%nat] 0%nat; UCZ [PI / 2] [] 1%nat], ph_final) ∧
    _dec_diag g = Ok [UCZ [0; PI] [1%nat] 0%nat; UCZ [PI / 2] [] 1%nat] ∧
    ph_final !! 0%nat = Some (PI / 4).
Proof.
  destruct (dec_diag_state_validated _ _ cz_init) as (ph_final & Hrun & Hfinal).
  cbn [num_qubits] in Hrun, Hfinal.
  rewrite cz_phases in Hrun, Hfinal.
  rewrite <- (two_buffer_loop_closed_final 2 2 _ []) in Hfinal.
  rewrite cz_two_buffer in Hrun, Hfinal. cbn [fst snd] in Hrun, Hfinal.
  exists (mkDiagGate 2 cz_diag), ph_final.
  split_and!; [apply cz_init|done| | |done|apply cz_dec_diag|].
  - cbn [params]. rewrite <- cz_phases.
    apply phases_of_checked, check_entries_unit, cz_unit_modulus.
  - cbn [delta_pairs].
    replace (0 - 0) with 0 by lra. by replace (PI - 0) with PI by lra.
  - destruct ph_final as [|p ph_rest]; [done|].
    by injection Hfinal as ->.
Qed.

(** C4 (counterexample): in the circuit emitted for [[1, 1, 1, -1]] the
    instruction without control holds the angle [pi / 2], not 0. *)
Lemma dec_diag_controlled_z_not_zero :
  ∃ g circuit,
    DiagGate_init cz_diag = Ok g ∧ _dec_diag g = Ok circuit ∧
    ¬ one_level_then_zero circuit.
Proof.
  exists (mkDiagGate 2 cz_diag), [UCZ [0; PI] [1%nat] 0%nat; UCZ [PI / 2] [] 1%nat].
  split; [apply cz_init|]. split; [apply cz_dec_diag|].
  intros [_ Hzero].
  specialize (Hzero (UCZ [PI / 2] [] 1%nat)).
  assert (Forall (λ a, a = 0) [PI / 2]) as Hall.
  { apply Hzero; [|done]. apply list_elem_of_In. simpl. tauto. }
  apply Forall_cons in Hall as [Hpi _].
  pose proof PI_RGT_0. lra.
Qed.

(** C3 (counterexample): in the circuit emitted for [[1, 1, 1, -1]]
    ([k = 2]) the first instruction has one control and the last has none,
    and the target goes from [q[0]] to [q[1]]: neither has the first
    instruction the fewest controls, nor the last one [k - 1] of them, nor
    does the target index decrease. *)
Lemma dec_diag_controlled_z_not_coarsest_first :
  ∃ g circuit,
    DiagGate_init cz_diag = Ok g ∧ _dec_diag g = Ok circuit ∧
    ¬ fewest_controls_first circuit ∧
    ¬ most_controls_last (num_qubits g) circuit ∧
    ¬ targets_toward_first circuit ∧
    ¬ coarsest_level_first (num_qubits g) circuit.
Proof.
  exists (mkDiagGate 2 cz_diag), [UCZ [0; PI] [1%nat] 0%nat; UCZ [PI / 2] [] 1%nat].
  split; [apply cz_init|]. split; [apply cz_dec_diag|].
  assert (¬ most_controls_last 2 [UCZ [0; PI] [1%nat] 0%nat; UCZ [PI / 2] [] 1%nat])
    as Hlast.
  { intros H. by specialize (H (UCZ [PI / 2] [] 1%nat) eq_refl). }
  split_and!; [| exact Hlast | | by intros (_ & ? & _)].
  - intros H.
    specialize (H (UCZ [0; PI] [1%nat] 0%nat) (UCZ [PI / 2] [] 1%nat) eq_refl).
    simpl in H. assert (1 ≤ 0)%nat; [|lia].
    apply H, list_elem_of_In. simpl. tauto.
  - intros H.
    specialize (H 0%nat 1%nat (UCZ [0; PI] [1%nat] 0%nat)
                  (UCZ [PI / 2] [] 1%nat) ltac:(lia) eq_refl eq_refl).
    simpl in H. lia.
Qed.

End ControlledZClaims.

(** The order of emission at the controlled-Z diagonal. *)
Lemma dec_diag_finest_level_first_witness :
  DiagGate_init cz_diag = Ok (mkDiagGate 2 cz_diag) ∧
  ∃ circuit,
    _dec_diag (mkDiagGate 2 cz_diag) = Ok circuit ∧
    length circuit = 2 ∧
    ∀ j ins, circuit !! j = Some ins →
      q_target ins = j ∧ q_controls ins = seq (j + 1) (2 - 1 - j).
Proof.
  split; [apply cz_init|].
  apply (dec_diag_finest_level_first cz_diag (mkDiagGate 2 cz_diag) cz_init).
Defined.

(** The two levels of the controlled-Z diagonal. *)
Lemma dec_diag_terminates_after_k_levels_witness :
  DiagGate_init cz_diag = Ok (mkDiagGate 2 cz_diag) ∧
  ∃ ps ph_final circuit,
    length cz_diag = 2 ^ 2 ∧
    phases_of cz_diag = Ok ps ∧
    nsteps (while_step 2) 2 (length cz_diag, ps, []) (1, ph_final, circuit) ∧
    _dec_diag (mkDiagGate 2 cz_diag) = Ok circuit ∧
    length circuit = 2 ∧
    ∀ j ins, circuit !! j = Some ins →
      length (angle_list ins) = 2 ^ (2 - 1 - j).
Proof.
  split; [apply cz_init|].
  apply (dec_diag_terminates_after_k_levels cz_diag (mkDiagGate 2 cz_diag) cz_init).
Defined.

(** The single level of the phases [[0, pi]] on one qubit. *)
Lemma level_merges_pairs_in_order_witness :
  1 ≤ 1 ∧ 2 ^ 1 ≤ length [0%R; PI] ∧
  ∃ ph' ins,
    level 1 (2 ^ 1) [0%R; PI] = Ok (ph', ins) ∧
    dec_loop 1 (2 ^ 1) [0%R; PI] []
    = dec_loop 1 (2 ^ 1 / 2) ph' ([] ++ [ins]) ∧
    length (angle_list ins) = 2 ^ 1 / 2 ∧
    ∀ i, i < 2 ^ 1 / 2 →
      ∃ p0 p1,
        [0%R; PI] !! (2 * i) = Some p0 ∧ [0%R; PI] !! (2 * i + 1) = Some p1 ∧
        ph' !! i = Some ((p0 + p1) / 2)%R ∧
        angle_list ins !! i = Some (p1 - p0)%R.
Proof.
  split; [lia|]. split; [simpl; lia|].
  apply (level_merges_pairs_in_order 1 0 [0%R; PI] []); simpl; lia.
Defined.

(** Both parts at the phases [[0, pi]] on one qubit. *)
Lemma in_place_refines_two_buffer_witness :
  2 * 1 ≤ length [0%R; PI] ∧
  (∃ ph' angles_rz,
     for_pairs (range_step2 (2 * 1)) [0%R; PI] [] = Ok (ph', angles_rz) ∧
     take 1 ph' = merge_pairs (take (2 * 1) [0%R; PI]) ∧
     drop 1 ph' = drop 1 [0%R; PI] ∧
     angles_rz = delta_pairs (take (2 * 1) [0%R; PI])) ∧
  1 ≤ 1 ∧ 2 ^ 1 ≤ length [0%R; PI] ∧
  (∃ ph_final,
     dec_loop 1 (2 ^ 1) [0%R; PI] []
     = Ok ((two_buffer_loop 1 1 (take (2 ^ 1) [0%R; PI]) []).1, ph_final) ∧
     take 1 ph_final = (two_buffer_loop 1 1 (take (2 ^ 1) [0%R; PI]) []).2).
Proof.
  split; [simpl; lia|].
  split; [apply (proj1 in_place_refines_two_buffer [0%R; PI] 1); simpl; lia|].
  split; [lia|]. split; [simpl; lia|].
  apply (proj2 in_place_refines_two_buffer 1 1 [0%R; PI] []); simpl; lia.
Defined.

(** * Further properties of the constructor and of [diag_gate] *)

Section Construction.

Implicit Types (diag : list entry) (g : DiagGate) (qubit : list qubit).

Lemma check_entries_passes diag :
  check_entries diag = Ok tt ↔ Forall passes_modulus_test diag.
Proof.
  rewrite check_entries_Ok. apply Forall_proper; [|done].
  intros [re im|]; simpl.
  - split; [by intros (? & ? & [= <- <-] & ?)|eauto].
  - split; [by intros (? & ? & ? & ?)|done].
Qed.

(** The constructor accepts exactly the lists of [2^k] numbers, [k >= 1],
    whose moduli all pass the one-sided test, and the gate it builds has
    [k] qubits and the list itself as parameters. *)
Theorem DiagGate_init_accepts_iff diag g :
  DiagGate_init diag = Ok g ↔
  ∃ k, 1 ≤ k ∧ length diag = 2 ^ k ∧ Forall passes_modulus_test diag ∧
       g = mkDiagGate k diag.
Proof.
  split.
  - intros Hinit.
    pose proof (DiagGate_init_Ok _ _ Hinit) as (Hk & Hlen & Hparams & Hchk).
    exists (num_qubits g). split_and!; [done|done|by apply check_entries_passes|].
    destruct g as [k ps]. simpl in *. by subst.
  - intros (k & Hk & Hlen & Hall & ->).
    apply DiagGate_init_pow2; [done|done|by apply check_entries_passes].
Qed.

Lemma check_entries_app diag diag' :
  check_entries diag = Ok tt →
  check_entries (diag ++ diag') = check_entries diag'.
Proof.
  induction diag as [|z diag IH]; [done|].
  destruct z as [re im|]; [|done]. simpl.
  destruct (Rlt_dec _ _); [|done]. apply IH.
Qed.

(** With a valid length, the error names the first entry that fails: an
    object that [complex] refuses with a [TypeError] gives "Not all of the
    diagonal entries can be converted to complex numbers.", a number of
    modulus [1 + _EPS] or more gives "A diagonal entry has not absolute
    value one.", whatever follows that entry. *)
Theorem DiagGate_init_first_offending_entry k diag z rest :
  1 ≤ k → length (diag ++ z :: rest) = 2 ^ k →
  check_entries diag = Ok tt → ¬ passes_modulus_test z →
  DiagGate_init (diag ++ z :: rest)
  = Raise (QiskitError (match z with
                        | NonNumeric => NotConvertible
                        | Cplx _ _ => NotAbsoluteValueOne
                        end)).
Proof.
  intros Hk Hlen Hgood Hbad. unfold DiagGate_init.
  rewrite Hlen, math_log2_pow2. cbn [mbind result_bind lt_one is_integer].
  destruct (Nat.ltb_spec k 1); [lia|]. cbn [orb negb].
  rewrite check_entries_app by done.
  destruct z as [re im|]; [|done]. simpl in *.
  by destruct (Rlt_dec _ _).
Qed.

(** What [diag_gate] does before [self.append]: either one of its checks
    raises, whatever [self.append] would do, and the circuit is left as it
    was; or the constructor has built a gate on exactly as many qubits as
    were given, and [diag_gate] ends in the call of [self.append] on that
    gate and those qubits. *)
Lemma diag_gate_cases (self : QuantumCircuit) diag qubit :
  (∃ e, ∀ append, diag_gate append self diag qubit = (self, Raise e)) ∨
  (∃ g, DiagGate_init diag = Ok g ∧
        num_qubits g = length qubit ∧ params g = diag ∧
        length diag = 2 ^ length qubit ∧
        ∀ append, diag_gate append self diag qubit = append self g qubit).
Proof.
  unfold diag_gate.
  destruct (math_log2 (length diag)) as [v|e] eqn:Hlog; [|eauto].
  destruct v as [k|fl]; simpl; [|eauto].
  destruct (Nat.eqb_spec (length qubit) k) as [->|]; simpl; [|eauto].
  apply math_log2_int in Hlog.
  destruct (DiagGate_init diag) as [g|e] eqn:Hinit; [|eauto].
  right. exists g. split; [done|].
  pose proof (DiagGate_init_Ok _ _ Hinit) as (Hk & Hlen & Hparams & _).
  split_and!; [|done|done|done].
  apply (Nat.pow_inj_r 2); [lia|]. by rewrite <- Hlen.
Qed.

(** [diag_gate] either raises before [self.append] is reached, and then
    leaves the circuit as it was whatever [self.append] would do, or it ends
    in the one call [self.append(DiagGate(diag), qubit)], whose outcome is
    its outcome: the gate is the one the constructor builds from the
    diagonal, it acts on exactly as many qubits as were given, and the
    diagonal has [2^(number of qubits)] entries. *)
Theorem diag_gate_outcome (self : QuantumCircuit) diag qubit :
  (∃ e, ∀ append, diag_gate append self diag qubit = (self, Raise e)) ∨
  (∃ g, DiagGate_init diag = Ok g ∧
        num_qubits g = length qubit ∧ params g = diag ∧
        length diag = 2 ^ length qubit ∧
        ∀ append, diag_gate append self diag qubit = append self g qubit).
Proof. apply diag_gate_cases. Qed.

(** [diag_gate] reaches the call of [self.append] (its outcome is the
    outcome of that call, whatever [self.append] does) exactly when at
    least one qubit is given, the diagonal has [2^(number of qubits)]
    entries, and every entry is a number passing the modulus test. *)
Theorem diag_gate_reaches_append_iff (self : QuantumCircuit) diag qubit :
  (∃ g, ∀ append, diag_gate append self diag qubit = append self g qubit) ↔
  1 ≤ length qubit ∧ length diag = 2 ^ length qubit ∧
  Forall passes_modulus_test diag.
Proof.
  split.
  - intros [g' Hreach].
    destruct (diag_gate_cases self diag qubit)
      as [[e Hraise]|(g & Hinit & Hnum & _ & Hlen & _)].
    + specialize (Hreach (λ _ _ _, (self, Ok tt))).
      rewrite Hraise in Hreach. discriminate.
    + pose proof (DiagGate_init_Ok _ _ Hinit) as (Hk & _ & _ & Hchk).
      rewrite Hnum in Hk. by apply check_entries_passes in Hchk.
  - intros (Hq & Hlen & Hall).
    exists (mkDiagGate (length qubit) diag). intros append. unfold diag_gate.
    rewrite Hlen, math_log2_pow2. simpl. rewrite Nat.eqb_refl. simpl.
    by rewrite (DiagGate_init_pow2 (length qubit) diag)
      by (done || by apply check_entries_passes).
Qed.

End Construction.

(** Three good entries, then an object that [complex] refuses with a
    [TypeError], on two qubits. *)
Lemma DiagGate_init_first_offending_entry_witness :
  1 ≤ 2 ∧ length ([Cplx 1 0; Cplx 1 0; Cplx 1 0] ++ NonNumeric :: []) = 2 ^ 2 ∧
  check_entries [Cplx 1 0; Cplx 1 0; Cplx 1 0] = Ok tt ∧
  DiagGate_init ([Cplx 1 0; Cplx 1 0; Cplx 1 0] ++ NonNumeric :: [])
  = Raise (QiskitError NotConvertible).
Proof.
  assert (check_entries [Cplx 1 0; Cplx 1 0; Cplx 1 0] = Ok tt) as Hgood.
  { apply check_entries_unit. repeat constructor; simpl; lra. }
  split; [lia|]. split; [reflexivity|]. split; [exact Hgood|].
  apply (DiagGate_init_first_offending_entry 2
           [Cplx 1 0; Cplx 1 0; Cplx 1 0] NonNumeric []);
    [lia|reflexivity|exact Hgood|simpl; tauto].
Defined.

(** * Further properties of the reduction *)

Section Reduction.

Local Open Scope R_scope.

Implicit Types (diag : list entry) (g : DiagGate) (cur ps : list R).
Implicit Types (circ : list instruction) (k m j : nat).

(** [_extract_rz] keeps the promise of its comment: with the phase and the
    angle it returns, [exp(1j * phase) * Rz(z_angle)] is the diagonal matrix
    with entries [exp(1j * phi1)] and [exp(1j * phi2)]; the two inputs are
    recovered as [phase - z_angle / 2] and [phase + z_angle / 2]. *)
Theorem extract_rz_round_trip (phi1 phi2 : R) :
  let phase := (_extract_rz phi1 phi2).1 in
  let z_angle := (_extract_rz phi1 phi2).2 in
  Cmult (Cexp phase) (Rz z_angle).1 = Cexp phi1 ∧
  Cmult (Cexp phase) (Rz z_angle).2 = Cexp phi2 ∧
  phase - z_angle / 2 = phi1 ∧ phase + z_angle / 2 = phi2.
Proof.
  unfold _extract_rz, Rz. cbn [fst snd]. rewrite <- !Cexp_add.
  split_and!; [f_equal; lra|f_equal; lra|lra|lra].
Qed.

(** The state in which the loop ends on a constructed gate: the circuit of
    the two-buffer reduction, and in place 0 the single phase that the
    reduction ends with. *)
Lemma dec_diag_state_final diag g :
  DiagGate_init diag = Ok g →
  ∃ global_phase ph_rest,
    dec_diag_state g
    = Ok ((two_buffer_loop (num_qubits g) (num_qubits g)
             (entry_phase <$> diag) []).1, global_phase :: ph_rest) ∧
    Nat.iter (num_qubits g) merge_pairs (entry_phase <$> diag) = [global_phase] ∧
    length (entry_phase <$> diag) = (2 ^ num_qubits g)%nat.
Proof.
  intros Hinit.
  pose proof (DiagGate_init_Ok _ _ Hinit) as (Hk & Hlen & _ & _).
  destruct (dec_diag_state_validated _ _ Hinit) as (ph_final & Hrun & Hfinal).
  assert (length (entry_phase <$> diag) = (2 ^ num_qubits g)%nat) as Hps
    by (by rewrite length_fmap).
  pose proof (length_iter_merge_pairs (num_qubits g) 0 (entry_phase <$> diag))
    as Hone.
  rewrite Nat.add_0_r in Hone. specialize (Hone Hps).
  rewrite <- Hfinal in Hone |- *.
  destruct ph_final as [|p ph_rest]; [done|].
  exists p, ph_rest. split; [done|]. split; [|done].
  simpl in *. by destruct ph_rest.
Qed.

Lemma merge_pairs_constant (c : R) cur :
  Forall (λ p, p = c) cur → Forall (λ p, p = c) (merge_pairs cur).
Proof.
  induction cur as [| |p0 p1 rest IH] using pairs_ind; [done..|].
  intros (-> & (-> & Hrest)%Forall_cons)%Forall_cons.
  cbn [merge_pairs]. constructor; [lra|by apply IH].
Qed.

Lemma delta_pairs_constant (c : R) cur :
  Forall (λ p, p = c) cur → Forall (λ a, a = 0) (delta_pairs cur).
Proof.
  induction cur as [| |p0 p1 rest IH] using pairs_ind; [done..|].
  intros (-> & (-> & Hrest)%Forall_cons)%Forall_cons.
  cbn [delta_pairs]. constructor; [lra|by apply IH].
Qed.

Lemma iter_merge_pairs_invariant (P : list R → Prop) j cur :
  (∀ l, P l → P (merge_pairs l)) → P cur → P (Nat.iter j merge_pairs cur).
Proof.
  intros Hstep Hcur. induction j as [|j IH]; [done|].
  rewrite Nat.iter_succ. by apply Hstep.
Qed.

(** A diagonal whose entries all have the same phase [c] (the identity
    matrix, or any multiple of it) is decomposed into instructions whose
    angles are all 0, and the phase left over is [c]. *)
Theorem dec_diag_constant_phase diag g (c : R) :
  DiagGate_init diag = Ok g →
  Forall (λ z, entry_phase z = c) diag →
  ∃ circuit ph_final,
    dec_diag_state g = Ok (circuit, ph_final) ∧
    (∀ ins, ins ∈ circuit → Forall (λ a, a = 0) (angle_list ins)) ∧
    ph_final !! 0%nat = Some c.
Proof.
  intros Hinit Hconst.
  destruct (dec_diag_state_final _ _ Hinit)
    as (global_phase & ph_rest & Hrun & Hfinal & Hlen).
  assert (Forall (λ p, p = c) (entry_phase <$> diag)) as Hps
    by (by apply Forall_fmap).
  eexists _, _. split; [exact Hrun|]. split.
  - intros ins (j & Hj)%list_elem_of_lookup_1.
    apply lookup_two_buffer_closed in Hj as [_ ->]; [|done]. cbn [angle_list].
    apply (delta_pairs_constant c).
    by apply (iter_merge_pairs_invariant (Forall (λ p, p = c)));
      [apply merge_pairs_constant|].
  - assert (Forall (λ p, p = c) [global_phase]) as Hg.
    { rewrite <- Hfinal.
      by apply (iter_merge_pairs_invariant (Forall (λ p, p = c)));
        [apply merge_pairs_constant|]. }
    apply Forall_cons in Hg as [-> _]. done.
Qed.

End Reduction.

Section Measures.

Local Open Scope R_scope.

Implicit Types (diag : list entry) (g : DiagGate) (cur ps : list R).
Implicit Types (circ : list instruction) (k m j : nat).

Lemma phase_sum_merge_pairs cur :
  Nat.Even (length cur) → phase_sum (merge_pairs cur) * 2 = phase_sum cur.
Proof.
  induction cur as [|p|p0 p1 rest IH] using pairs_ind.
  - intros _. unfold phase_sum; simpl. lra.
  - intros [n Hn]. simpl in Hn. lia.
  - intros [n Hn]. simpl in Hn.
    assert (Nat.Even (length rest)) as Hrest by (exists (n - 1)%nat; lia).
    specialize (IH Hrest). unfold phase_sum in *. simpl. lra.
Qed.

Lemma phase_sum_iter_merge_pairs j : ∀ m cur,
  length cur = (2 ^ (j + m))%nat →
  phase_sum (Nat.iter j merge_pairs cur) * 2 ^ j = phase_sum cur.
Proof.
  induction j as [|j IH]; intros m cur Hlen; [simpl; lra|].
  rewrite Nat.iter_succ. rewrite <- (IH (S m) cur)
    by (by rewrite <- Nat.add_succ_comm).
  rewrite <- (phase_sum_merge_pairs (Nat.iter j merge_pairs cur)).
  - simpl. lra.
  - rewrite (length_iter_merge_pairs j (S m))
      by (by rewrite <- Nat.add_succ_comm).
    exists (2 ^ m)%nat. by rewrite Nat.pow_succ_r'.
Qed.

(** The phase left in [diag_phases[0]] when the loop ends on a gate of [k]
    qubits is the arithmetic mean of the [2^k] phases of the diagonal. *)
Theorem dec_diag_global_phase_is_mean diag g :
  DiagGate_init diag = Ok g →
  ∃ circuit ph_final global_phase,
    dec_diag_state g = Ok (circuit, ph_final) ∧
    ph_final !! 0%nat = Some global_phase ∧
    global_phase = phase_sum (entry_phase <$> diag) / 2 ^ num_qubits g.
Proof.
  intros Hinit.
  destruct (dec_diag_state_final _ _ Hinit)
    as (global_phase & ph_rest & Hrun & Hfinal & Hlen).
  eexists _, _, global_phase. split; [exact Hrun|]. split; [done|].
  pose proof (phase_sum_iter_merge_pairs (num_qubits g) 0
                (entry_phase <$> diag)) as Hsum.
  rewrite Nat.add_0_r, Hfinal in Hsum. specialize (Hsum Hlen).
  rewrite <- Hsum. unfold phase_sum; simpl.
  assert (2 ^ num_qubits g ≠ 0) by (apply pow_nonzero; lra).
  field. done.
Qed.

Lemma angle_count_app circ circ' :
  angle_count (circ ++ circ') = (angle_count circ + angle_count circ')%nat.
Proof.
  unfold angle_count. induction circ as [|ins circ IH]; simpl; [done|].
  rewrite IH. lia.
Qed.

Lemma two_buffer_loop_angle_count k m : ∀ cur,
  length cur = (2 ^ m)%nat →
  (angle_count (two_buffer_loop k m cur []).1 + 1 = 2 ^ m)%nat.
Proof.
  induction m as [|m IH]; intros cur Hlen; [done|].
  cbn [two_buffer_loop]. rewrite two_buffer_loop_app, angle_count_app.
  assert (length (merge_pairs cur) = (2 ^ m)%nat) as Hlen'.
  { by rewrite length_merge_pairs, Hlen, Nat.pow_succ_r', half_double. }
  specialize (IH _ Hlen').
  cbn [app angle_count foldr angle_list].
  rewrite length_delta_pairs, Hlen, !Nat.pow_succ_r', half_double.
  fold (angle_count (two_buffer_loop k m (merge_pairs cur) []).1). lia.
Qed.

(** The circuit of a gate of [k] qubits holds [2^k - 1] rotation angles
    in all: with the phase left over, as many real numbers as the diagonal
    has entries. *)
Theorem dec_diag_angle_count diag g :
  DiagGate_init diag = Ok g →
  ∃ circuit,
    _dec_diag g = Ok circuit ∧
    angle_count circuit = (2 ^ num_qubits g - 1)%nat ∧
    (angle_count circuit + 1)%nat = length diag.
Proof.
  intros Hinit.
  pose proof (DiagGate_init_Ok _ _ Hinit) as (Hk & Hlen & _ & _).
  eexists. split; [by apply dec_diag_validated|].
  pose proof (two_buffer_loop_angle_count (num_qubits g) (num_qubits g)
                (entry_phase <$> diag)) as Hcount.
  rewrite length_fmap in Hcount. specialize (Hcount Hlen). lia.
Qed.

(** Every instruction handed to [circuit.ucz] is well formed: it holds one
    angle per pattern of its controls ([2^(number of controls)] angles), its
    controls are distinct qubits of the register, and its target is a qubit
    of the register that is not among its controls. *)
Theorem dec_diag_instructions_well_formed diag g :
  DiagGate_init diag = Ok g →
  ∃ circuit,
    _dec_diag g = Ok circuit ∧
    ∀ ins, ins ∈ circuit →
      length (angle_list ins) = (2 ^ length (q_controls ins))%nat ∧
      NoDup (q_controls ins) ∧
      (∀ c, c ∈ q_controls ins → (c < num_qubits g)%nat) ∧
      (q_target ins < num_qubits g)%nat ∧
      q_target ins ∉ q_controls ins.
Proof.
  intros Hinit.
  pose proof (DiagGate_init_Ok _ _ Hinit) as (Hk & Hlen & _ & _).
  eexists. split; [by apply dec_diag_validated|].
  intros ins (j & Hj)%list_elem_of_lookup_1.
  apply lookup_two_buffer_closed in Hj as [Hjk ->];
    [|by rewrite length_fmap].
  cbn [angle_list q_controls q_target]. split_and!.
  - rewrite length_delta_pairs, length_seq.
    rewrite (length_iter_merge_pairs j (num_qubits g - j))
      by (rewrite length_fmap, Hlen; f_equal; lia).
    replace (num_qubits g - j)%nat with (S (num_qubits g - 1 - j)) by lia.
    by rewrite Nat.pow_succ_r', half_double.
  - apply NoDup_seq.
  - intros c Hc%elem_of_seq. lia.
  - done.
  - intros Hc%elem_of_seq. lia.
Qed.

(** The phases are recovered from the circuit: for every constructed gate
    (also one holding entries of modulus below 1) and every basis state
    [b], the phases that the emitted instructions give to [b], plus the
    phase left over, add up to [cmath.phase] of entry [b]. *)
Theorem dec_diag_phase_round_trip diag g :
  DiagGate_init diag = Ok g →
  ∃ circuit ph_final global_phase,
    dec_diag_state g = Ok (circuit, ph_final) ∧
    ph_final !! 0%nat = Some global_phase ∧
    ∀ b, (b < 2 ^ num_qubits g)%nat →
      circuit_phase circuit b + global_phase
      = nth b (entry_phase <$> diag) 0.
Proof.
  intros Hinit.
  destruct (dec_diag_state_final _ _ Hinit)
    as (global_phase & ph_rest & Hrun & Hfinal & Hlen).
  eexists _, _, global_phase. split; [exact Hrun|]. split; [done|].
  intros b Hb.
  pose proof (two_buffer_loop_phase (num_qubits g) (num_qubits g)
                (entry_phase <$> diag) b ltac:(lia) Hlen Hb) as Hsum.
  rewrite two_buffer_loop_closed_final, Hfinal in Hsum.
  by rewrite Nat.sub_diag, Nat.pow_0_r, Nat.div_1_r in Hsum.
Qed.

End Measures.

Section Invariance.

Local Open Scope R_scope.

Implicit Types (diag : list entry) (g : DiagGate) (cur ps ph : list R).
Implicit Types (circ : list instruction) (k m j : nat).

Lemma merge_pairs_shift (c : R) cur :
  merge_pairs ((λ p, p + c) <$> cur) = (λ p, p + c) <$> merge_pairs cur.
Proof.
  induction cur as [| |p0 p1 rest IH] using pairs_ind; [done..|].
  cbn [fmap list_fmap merge_pairs] in *. rewrite IH. f_equal. lra.
Qed.

Lemma delta_pairs_shift (c : R) cur :
  delta_pairs ((λ p, p + c) <$> cur) = delta_pairs cur.
Proof.
  induction cur as [| |p0 p1 rest IH] using pairs_ind; [done..|].
  cbn [fmap list_fmap delta_pairs] in *. rewrite IH. f_equal. lra.
Qed.

Lemma two_buffer_loop_shift (c : R) k m : ∀ cur circ,
  two_buffer_loop k m ((λ p, p + c) <$> cur) circ
  = ((two_buffer_loop k m cur circ).1,
     (λ p, p + c) <$> (two_buffer_loop k m cur circ).2).
Proof.
  induction m as [|m IH]; intros cur circ; [done|].
  cbn [two_buffer_loop].
  by rewrite merge_pairs_shift, delta_pairs_shift, length_fmap, IH.
Qed.

(** Adding one constant to all the phases does not change the circuit the
    loop emits: only the phase left in place 0 moves, by that constant.
    The angles depend on differences of phases only. *)
Theorem dec_loop_global_phase_shift k m ph circ (c : R) :
  (m ≤ k)%nat → (2 ^ m ≤ length ph)%nat →
  ∃ circuit ph_final ph_final',
    dec_loop k (2 ^ m) ph circ = Ok (circuit, ph_final) ∧
    dec_loop k (2 ^ m) ((λ p, p + c) <$> ph) circ = Ok (circuit, ph_final') ∧
    ph_final' !! 0%nat = (λ p, p + c) <$> ph_final !! 0%nat.
Proof.
  intros Hm Hlen.
  destruct (dec_loop_two_buffer k m ph circ Hm Hlen)
    as (ph_final & Hrun & Hfinal).
  destruct (dec_loop_two_buffer k m ((λ p, p + c) <$> ph) circ Hm)
    as (ph_final' & Hrun' & Hfinal'); [by rewrite length_fmap|].
  rewrite <- fmap_take, two_buffer_loop_shift in Hrun', Hfinal'.
  cbn [fst snd] in Hrun', Hfinal'.
  exists (two_buffer_loop k m (take (2 ^ m) ph) circ).1, ph_final, ph_final'.
  split; [done|]. split; [done|].
  rewrite <- Hfinal, fmap_take in Hfinal'.
  assert (take 1 ph_final' !! 0%nat
          = take 1 ((λ p, p + c) <$> ph_final) !! 0%nat) as Hlook
    by (by rewrite Hfinal').
  rewrite !lookup_take_lt in Hlook by lia.
  by rewrite Hlook, list_lookup_fmap.
Qed.

Lemma atan2_bound (y x : R) : - PI < atan2 y x <= PI.
Proof.
  unfold atan2. pose proof PI_RGT_0 as Hpi.
  pose proof (atan_bound (y / x)) as [Hlo Hhi].
  destruct (Rlt_dec 0 x) as [Hpos|Hnpos]; [lra|].
  destruct (Rlt_dec x 0) as [Hneg|Hnneg].
  - destruct (Rle_dec 0 y) as [Hy|Hy].
    + assert (atan (y / x) <= 0); [|lra].
      rewrite <- atan_0. destruct Hy as [Hy| <-].
      * left. apply atan_increasing.
        assert (0 < y * / (- x)) as Hquot
          by (apply Rmult_lt_0_compat; [done|apply Rinv_0_lt_compat; lra]).
        replace (y / x) with (- (y * / (- x))) by (field; lra). lra.
      * right. f_equal. unfold Rdiv. ring.
    + assert (0 < atan (y / x)); [|lra].
      rewrite <- atan_0. apply atan_increasing.
      replace (y / x) with ((- y) * / (- x)) by (field; lra).
      apply Rmult_lt_0_compat; [lra|]. apply Rinv_0_lt_compat. lra.
  - destruct (Rlt_dec 0 y); [lra|]. destruct (Rlt_dec y 0); lra.
Qed.

Lemma merge_pairs_bound cur :
  Forall (λ p, - PI < p <= PI) cur →
  Forall (λ p, - PI < p <= PI) (merge_pairs cur).
Proof.
  induction cur as [| |p0 p1 rest IH] using pairs_ind; [done..|].
  intros (H0 & (H1 & Hrest)%Forall_cons)%Forall_cons.
  cbn [merge_pairs]. constructor; [lra|by apply IH].
Qed.

Lemma delta_pairs_bound cur :
  Forall (λ p, - PI < p <= PI) cur →
  Forall (λ a, - (2 * PI) < a < 2 * PI) (delta_pairs cur).
Proof.
  induction cur as [| |p0 p1 rest IH] using pairs_ind; [done..|].
  intros (H0 & (H1 & Hrest)%Forall_cons)%Forall_cons.
  cbn [delta_pairs]. constructor; [lra|by apply IH].
Qed.

(** Every angle that [_dec_diag] emits lies strictly between [-2 pi] and
    [2 pi], and the phase left over lies in the range [(-pi, pi]] of
    [cmath.phase]: merging keeps the phases in that range at every level. *)
Theorem dec_diag_angles_bounded diag g :
  DiagGate_init diag = Ok g →
  ∃ circuit ph_final global_phase,
    dec_diag_state g = Ok (circuit, ph_final) ∧
    (∀ ins, ins ∈ circuit →
       Forall (λ a, - (2 * PI) < a < 2 * PI) (angle_list ins)) ∧
    ph_final !! 0%nat = Some global_phase ∧
    - PI < global_phase <= PI.
Proof.
  intros Hinit.
  destruct (dec_diag_state_final _ _ Hinit)
    as (global_phase & ph_rest & Hrun & Hfinal & Hlen).
  assert (Forall (λ p, - PI < p <= PI) (entry_phase <$> diag)) as Hps.
  { apply Forall_fmap, Forall_forall. intros [re im|] _; simpl.
    - apply atan2_bound.
    - pose proof PI_RGT_0. lra. }
  assert (∀ j, Forall (λ p, - PI < p <= PI)
                 (Nat.iter j merge_pairs (entry_phase <$> diag))) as Hiter.
  { intros j.
    by apply (iter_merge_pairs_invariant (Forall (λ p, - PI < p <= PI)));
      [apply merge_pairs_bound|]. }
  eexists _, _, global_phase. split; [exact Hrun|].
  split; [|split; [done|]].
  - intros ins (j & Hj)%list_elem_of_lookup_1.
    apply lookup_two_buffer_closed in Hj as [_ ->]; [|done]. cbn [angle_list].
    apply delta_pairs_bound, Hiter.
  - specialize (Hiter (num_qubits g)). rewrite Hfinal in Hiter.
    by apply Forall_cons in Hiter as [? _].
Qed.

End Invariance.

Section Modulus.

Local Open Scope R_scope.

Implicit Types (diag : list entry) (g : DiagGate).

Lemma atan2_scale (r y x : R) : 0 < r → atan2 (r * y) (r * x) = atan2 y x.
Proof.
  intros Hr. unfold atan2.
  assert (x ≠ 0 → r * y / (r * x) = y / x) as Hdiv by (intros; field; lra).
  repeat match goal with
         | |- context [Rlt_dec ?a ?b] => destruct (Rlt_dec a b)
         | |- context [Rle_dec ?a ?b] => destruct (Rle_dec a b)
         end;
    try rewrite Hdiv by lra; try reflexivity; exfalso; nra.
Qed.

(** The entries of [diag'] are those of [diag] scaled by positive reals. *)
Lemma entry_phase_scaled diag diag' :
  Forall2 (λ z z', ∃ r re im,
             0 < r ∧ z = Cplx re im ∧ z' = Cplx (r * re) (r * im)) diag diag' →
  entry_phase <$> diag' = entry_phase <$> diag.
Proof.
  induction 1 as [|z z' diag diag' (r & re & im & Hr & -> & ->) _ IH]; [done|].
  cbn [fmap list_fmap entry_phase] in *. rewrite IH. f_equal.
  by apply atan2_scale.
Qed.

(** [_dec_diag] looks at the phases of the entries only: two constructed
    gates whose entries differ by positive real factors (for instance an
    entry of modulus 0.5, which the constructor accepts, against the entry
    of modulus 1 with the same phase) are decomposed into the same circuit,
    with the same phase left over. *)
Theorem dec_diag_ignores_modulus diag diag' g g' :
  DiagGate_init diag = Ok g → DiagGate_init diag' = Ok g' →
  Forall2 (λ z z', ∃ r re im,
             0 < r ∧ z = Cplx re im ∧ z' = Cplx (r * re) (r * im)) diag diag' →
  dec_diag_state g' = dec_diag_state g ∧ _dec_diag g' = _dec_diag g.
Proof.
  intros Hinit Hinit' Hscaled.
  pose proof (DiagGate_init_Ok _ _ Hinit) as (_ & Hlen & Hparams & Hchk).
  pose proof (DiagGate_init_Ok _ _ Hinit') as (_ & Hlen' & Hparams' & Hchk').
  pose proof (Forall2_length _ _ _ Hscaled) as Hsame.
  assert (num_qubits g' = num_qubits g) as Hk.
  { apply (Nat.pow_inj_r 2); [lia|]. by rewrite <- Hlen, <- Hlen'. }
  assert (dec_diag_state g' = dec_diag_state g) as Hstate.
  { unfold dec_diag_state. rewrite Hparams, Hparams', Hk, <- Hsame.
    rewrite !phases_of_checked by done.
    by rewrite (entry_phase_scaled _ _ Hscaled). }
  split; [done|]. unfold _dec_diag. by rewrite Hstate.
Qed.

Lemma half_one_init :
  DiagGate_init [Cplx (1 / 2) 0; Cplx 1 0]
  = Ok (mkDiagGate 1 [Cplx (1 / 2) 0; Cplx 1 0]).
Proof.
  apply DiagGate_init_pow2; [lia|done|].
  apply check_entries_passes. repeat constructor; simpl.
  - rewrite np_abs_half. unfold _EPS. lra.
  - rewrite np_abs_unit by lra. unfold _EPS. lra.
Qed.

Lemma one_one_init :
  DiagGate_init [Cplx 1 0; Cplx 1 0] = Ok (mkDiagGate 1 [Cplx 1 0; Cplx 1 0]).
Proof.
  apply DiagGate_init_pow2; [lia|done|].
  apply check_entries_unit. repeat constructor; simpl; lra.
Qed.

End Modulus.

(** The diagonal [[0.5, 1]] against the identity [[1, 1]]. *)
Lemma dec_diag_ignores_modulus_witness :
  DiagGate_init [Cplx 1 0; Cplx 1 0] = Ok (mkDiagGate 1 [Cplx 1 0; Cplx 1 0]) ∧
  DiagGate_init [Cplx (1 / 2) 0; Cplx 1 0]
  = Ok (mkDiagGate 1 [Cplx (1 / 2) 0; Cplx 1 0]) ∧
  dec_diag_state (mkDiagGate 1 [Cplx (1 / 2) 0; Cplx 1 0])
  = dec_diag_state (mkDiagGate 1 [Cplx 1 0; Cplx 1 0]) ∧
  _dec_diag (mkDiagGate 1 [Cplx (1 / 2) 0; Cplx 1 0])
  = _dec_diag (mkDiagGate 1 [Cplx 1 0; Cplx 1 0]).
Proof.
  split; [apply one_one_init|]. split; [apply half_one_init|].
  apply (dec_diag_ignores_modulus [Cplx 1 0; Cplx 1 0]
           [Cplx (1 / 2) 0; Cplx 1 0] _ _ one_one_init half_one_init).
  constructor; [|constructor; [|constructor]].
  - exists (1 / 2)%R, 1%R, 0%R.
    split; [lra|]. split; [reflexivity|]. f_equal; lra.
  - exists 1%R, 1%R, 0%R.
    split; [lra|]. split; [reflexivity|]. f_equal; lra.
Defined.

(** The identity on two qubits: all phases are 0. *)
Lemma dec_diag_constant_phase_witness :
  DiagGate_init (replicate 4 (Cplx 1 0))
  = Ok (mkDiagGate 2 (replicate 4 (Cplx 1 0))) ∧
  Forall (λ z, entry_phase z = 0%R) (replicate 4 (Cplx 1 0)) ∧
  ∃ circuit ph_final,
    dec_diag_state (mkDiagGate 2 (replicate 4 (Cplx 1 0)))
    = Ok (circuit, ph_final) ∧
    (∀ ins, ins ∈ circuit → Forall (λ a, a = 0%R) (angle_list ins)) ∧
    ph_final !! 0 = Some 0%R.
Proof.
  assert (DiagGate_init (replicate 4 (Cplx 1 0))
          = Ok (mkDiagGate 2 (replicate 4 (Cplx 1 0)))) as Hinit.
  { apply DiagGate_init_pow2; [lia|done|].
    apply check_entries_unit. repeat constructor; simpl; lra. }
  assert (Forall (λ z, entry_phase z = 0%R) (replicate 4 (Cplx 1 0))) as Hzero.
  { repeat constructor; apply atan2_1_0. }
  split; [exact Hinit|]. split; [exact Hzero|].
  apply (dec_diag_constant_phase _ _ 0%R Hinit Hzero).
Defined.

(** The mean of the phases [[0, 0, 0, pi]] of the controlled-Z diagonal. *)
Lemma dec_diag_global_phase_is_mean_witness :
  DiagGate_init cz_diag = Ok (mkDiagGate 2 cz_diag) ∧
  ∃ circuit ph_final global_phase,
    dec_diag_state (mkDiagGate 2 cz_diag) = Ok (circuit, ph_final) ∧
    ph_final !! 0 = Some global_phase ∧
    global_phase = (phase_sum (entry_phase <$> cz_diag) / 2 ^ 2)%R.
Proof.
  split; [apply cz_init|].
  apply (dec_diag_global_phase_is_mean cz_diag (mkDiagGate 2 cz_diag) cz_init).
Defined.

(** The three angles of the controlled-Z diagonal. *)
Lemma dec_diag_angle_count_witness :
  DiagGate_init cz_diag = Ok (mkDiagGate 2 cz_diag) ∧
  ∃ circuit,
    _dec_diag (mkDiagGate 2 cz_diag) = Ok circuit ∧
    angle_count circuit = 2 ^ 2 - 1 ∧
    angle_count circuit + 1 = length cz_diag.
Proof.
  split; [apply cz_init|].
  apply (dec_diag_angle_count cz_diag (mkDiagGate 2 cz_diag) cz_init).
Defined.

(** The two instructions of the controlled-Z diagonal. *)
Lemma dec_diag_instructions_well_formed_witness :
  DiagGate_init cz_diag = Ok (mkDiagGate 2 cz_diag) ∧
  ∃ circuit,
    _dec_diag (mkDiagGate 2 cz_diag) = Ok circuit ∧
    ∀ ins, ins ∈ circuit →
      length (angle_list ins) = 2 ^ length (q_controls ins) ∧
      NoDup (q_controls ins) ∧
      (∀ c, c ∈ q_controls ins → c < 2) ∧
      q_target ins < 2 ∧
      q_target ins ∉ q_controls ins.
Proof.
  split; [apply cz_init|].
  apply (dec_diag_instructions_well_formed cz_diag (mkDiagGate 2 cz_diag) cz_init).
Defined.

(** The phases of the controlled-Z diagonal recovered from its circuit. *)
Lemma dec_diag_phase_round_trip_witness :
  DiagGate_init cz_diag = Ok (mkDiagGate 2 cz_diag) ∧
  ∃ circuit ph_final global_phase,
    dec_diag_state (mkDiagGate 2 cz_diag) = Ok (circuit, ph_final) ∧
    ph_final !! 0 = Some global_phase ∧
    ∀ b, b < 2 ^ 2 →
      (circuit_phase circuit b + global_phase)%R
      = nth b (entry_phase <$> cz_diag) 0%R.
Proof.
  split; [apply cz_init|].
  apply (dec_diag_phase_round_trip cz_diag (mkDiagGate 2 cz_diag) cz_init).
Defined.

(** The phases [[0, pi]] on one qubit, shifted by 1. *)
Lemma dec_loop_global_phase_shift_witness :
  1 ≤ 1 ∧ 2 ^ 1 ≤ length [0%R; PI] ∧
  ∃ circuit ph_final ph_final',
    dec_loop 1 (2 ^ 1) [0%R; PI] [] = Ok (circuit, ph_final) ∧
    dec_loop 1 (2 ^ 1) ((λ p, (p + 1)%R) <$> [0%R; PI]) []
    = Ok (circuit, ph_final') ∧
    ph_final' !! 0 = (λ p, (p + 1)%R) <$> ph_final !! 0.
Proof.
  split; [lia|]. split; [simpl; lia|].
  apply (dec_loop_global_phase_shift 1 1 [0%R; PI] [] 1%R); simpl; lia.
Defined.

(** The angles of the controlled-Z diagonal. *)
Lemma dec_diag_angles_bounded_witness :
  DiagGate_init cz_diag = Ok (mkDiagGate 2 cz_diag) ∧
  ∃ circuit ph_final global_phase,
    dec_diag_state (mkDiagGate 2 cz_diag) = Ok (circuit, ph_final) ∧
    (∀ ins, ins ∈ circuit →
       Forall (λ a, (- (2 * PI) < a < 2 * PI)%R) (angle_list ins)) ∧
    ph_final !! 0 = Some global_phase ∧
    (- PI < global_phase <= PI)%R.
Proof.
  split; [apply cz_init|].
  apply (dec_diag_angles_bounded cz_diag (mkDiagGate 2 cz_diag) cz_init).
Defined.
